(** * A verification model of the [packet] object cache (src/core/cache.js)

    The cache engine ([Cache]), its item constructor ([Cache.CacheItem]) and
    the storage backends ([Cache.Basic], [Cache.LocalStorage]) are embedded
    as Rocq functions.  The JavaScript heap, the timer queue filled by
    [setTimeout], the readings of [new Date().getTime()] and thrown
    exceptions are explicit: every engine method is a computation in a
    state-and-exception monad over a [World].

    Outside the model:
    - [_log], which only writes to the console when [_debug] is set;
    - properties inherited from [Object.prototype] (keys such as
      "toString") and the numeric order in which [for .. in] lists keys
      that look like array indices;
    - the sharing of the options bag between the caller and the item (the
      constructor stores and updates the caller's object);
    - the methods of [Cache.LocalStorage], of which no instance can be
      built: its constructor and its method table are modelled;
    - non-integer numbers and NaN as keys, payloads or times. *)

From Stdlib Require Import ZArith QArith Qround Lia Ascii String Sorted Permutation.
From stdpp Require Import base list strings pretty sorting.

Local Open Scope string_scope.
Local Open Scope Z_scope.
Local Open Scope list_scope.

(** ** JavaScript values *)

Inductive jsval :=
| VUndefined
| VNull
| VBool (b : bool)
| VNum (n : Z)
| VStr (s : string)
| VObj (id : nat).

(** ToBoolean: what [if (v)], [!v], [v ? _ : _] and [v && _] test. *)
Definition truthy (v : jsval) : bool :=
  match v with
  | VUndefined | VNull => false
  | VBool b => b
  | VNum n => negb (n =? 0)
  | VStr s => negb (String.eqb s "")
  | VObj _ => true
  end.

(** ToPropertyKey: the property name under which [obj[v]] is stored.
    Numbers are integers, named by their decimal digits as JavaScript
    names those below 2^53. *)
Definition ToPropertyKey (v : jsval) : string :=
  match v with
  | VUndefined => "undefined"
  | VNull => "null"
  | VBool true => "true"
  | VBool false => "false"
  | VNum n => pretty n
  | VStr s => s
  | VObj _ => "[object Object]"
  end.

(** Truthiness of an optional numeric field: absent is [undefined]. *)
Definition truthy_num (o : option Z) : bool :=
  match o with
  | Some n => negb (n =? 0)
  | None => false
  end.

(** Exceptions that can reach a caller. *)
Inductive exn :=
| TypeError (msg : string)
| Error (msg : string)
| BackendError (msg : string).

(** ** The item model *)

Record Date := { getTime : Z }.

(** A caller-supplied function, known by its identity only. *)
Definition fn := nat.

(** The value of [options.expirationAbsolute] as a call finds it: a Date,
    or the time value that an earlier [Cache.CacheItem] has put in its
    place. *)
Inductive Absolute :=
| ADate (d : Date)
| ATime (t : Z).

(** The options bag as a call of [setItem] finds it.  The bag is the
    caller's object, and the item keeps that very object as its [options]:
    a caller who passes the object again passes it as the earlier call
    left it, see [passed_again]. *)
Record OptionsArg := {
  arg_expirationAbsolute : option Absolute;
  arg_expirationSliding : option Z;
  arg_priority : option Z;
  arg_callback : option fn
}.

(** The options bag as [Cache.CacheItem] leaves it on the item. *)
Record Options := {
  expirationAbsolute : option Z;
  expirationSliding : option Z;
  priority : option Z;
  callback : option fn
}.

Record CacheItem := {
  key : jsval;
  value : jsval;
  options : Options;
  lastAccessed : Z
}.

(** Items are objects: storage backends and the engine share references. *)
Definition loc := nat.

(** [Cache.Priority], an object literal read by property name. *)
Definition Priority : list (string * Z) :=
  [("Low", 1); ("Normal", 2); ("High", 3)].

Fixpoint prop {A} (name : string) (obj : list (string * A)) : option A :=
  match obj with
  | [] => None
  | (n, v) :: rest => if String.eqb n name then Some v else prop name rest
  end.

(** ** Storage backends

    A backend is an object with methods [get], [set], [remove], [keys] and
    [size]; any of them may change the backend and may throw.  Calling a
    method the object does not have throws a TypeError. *)

Class Storage (S : Type) := {
  storage_get : jsval -> S -> S * (exn + option loc);
  storage_set : jsval -> loc -> S -> S * (exn + unit);
  storage_remove : jsval -> S -> S * (exn + option loc);
  storage_keys : S -> S * (exn + list jsval);
  storage_size : S -> S * (exn + Z)
}.

(** *** [Cache.Basic] *)

Record Basic := { _items : list (string * loc); _count : Z }.

Definition Basic_new : Basic := {| _items := []; _count := 0 |}.

(** [this._items[key] = value]: an existing property keeps its place in the
    enumeration order, a new one is added last. *)
Fixpoint assign {A} (name : string) (v : A) (obj : list (string * A)) :=
  match obj with
  | [] => [(name, v)]
  | (n, x) :: rest =>
      if String.eqb n name then (n, v) :: rest else (n, x) :: assign name v rest
  end.

(** [delete this._items[key]] *)
Fixpoint delete_prop {A} (name : string) (obj : list (string * A)) :=
  match obj with
  | [] => []
  | (n, x) :: rest =>
      if String.eqb n name then rest else (n, x) :: delete_prop name rest
  end.

(** [this._items[key]], among the own properties of [_items]; the names
    that [Object.prototype] answers are listed in [Object_prototype]. *)
Definition Basic_get (k : jsval) (b : Basic) : option loc :=
  prop (ToPropertyKey k) (_items b).

Definition Basic_set (k : jsval) (v : loc) (b : Basic) : Basic :=
  let count :=
    match Basic_get k b with
    | None => _count b + 1
    | Some _ => _count b
    end in
  {| _items := assign (ToPropertyKey k) v (_items b); _count := count |}.

Definition Basic_remove (k : jsval) (b : Basic) : Basic * option loc :=
  match Basic_get k b with
  | Some item =>
      ({| _items := delete_prop (ToPropertyKey k) (_items b);
          _count := _count b - 1 |}, Some item)
  | None => (b, None)
  end.

(** The [for-in] loop, in the order the names were added (names that are
    array indices come first in JavaScript). *)
Definition Basic_keys (b : Basic) : list jsval :=
  map (fun p => VStr (fst p)) (_items b).

(** The methods [Cache.Basic.prototype] defines: there is no [size]. *)
Definition Basic_prototype : list string := ["get"; "set"; "remove"; "keys"].

Definition has_method (proto : list string) (name : string) : bool :=
  existsb (String.eqb name) proto.

Definition not_a_function (name : string) : exn :=
  TypeError ("this._storage." +:+ name +:+ " is not a function").

#[export] Instance Basic_Storage : Storage Basic := {
  storage_get k b := (b, inr (Basic_get k b));
  storage_set k v b := (Basic_set k v b, inr tt);
  storage_remove k b := let (b', r) := Basic_remove k b in (b', inr r);
  storage_keys b := (b, inr (Basic_keys b));
  storage_size b :=
    if has_method Basic_prototype "size" then (b, inr (_count b))
    else (b, inl (not_a_function "size"))
}.

(** A backend a caller can inject: [Cache.Basic] extended with the missing
    method, [size() { return this._count; }]. *)
Record Sized := { base : Basic }.

#[export] Instance Sized_Storage : Storage Sized := {
  storage_get k s := (s, inr (Basic_get k (base s)));
  storage_set k v s := ({| base := Basic_set k v (base s) |}, inr tt);
  storage_remove k s :=
    let (b', r) := Basic_remove k (base s) in ({| base := b' |}, inr r);
  storage_keys s := (s, inr (Basic_keys (base s)));
  storage_size s := (s, inr (_count (base s)))
}.

(** A backend with a capacity of its own: like [Sized], but [set] throws
    once [quota] entries are held and the key is new. *)
Record Quota := { quota : Z; held : Basic }.

#[export] Instance Quota_Storage : Storage Quota := {
  storage_get k s := (s, inr (Basic_get k (held s)));
  storage_set k v s :=
    match Basic_get k (held s) with
    | None =>
        if quota s <=? _count (held s)
        then (s, inl (BackendError "QuotaExceededError"))
        else ({| quota := quota s; held := Basic_set k v (held s) |}, inr tt)
    | Some _ => ({| quota := quota s; held := Basic_set k v (held s) |}, inr tt)
    end;
  storage_remove k s :=
    let (b', r) := Basic_remove k (held s) in
    ({| quota := quota s; held := b' |}, inr r);
  storage_keys s := (s, inr (Basic_keys (held s)));
  storage_size s := (s, inr (_count (held s)))
}.

(** A probe around any backend that counts the calls of [set]. *)
Record Probe (B : Type) := { probed : B; set_calls : nat }.
Arguments probed {B} _.
Arguments set_calls {B} _.

Definition through {B A} (n : nat) (r : B * (exn + A)) : Probe B * (exn + A) :=
  ({| probed := fst r; set_calls := n |}, snd r).

#[export] Instance Probe_Storage {B} `{Storage B} : Storage (Probe B) := {
  storage_get k p := through (set_calls p) (storage_get k (probed p));
  storage_set k v p := through (S (set_calls p)) (storage_set k v (probed p));
  storage_remove k p := through (set_calls p) (storage_remove k (probed p));
  storage_keys p := through (set_calls p) (storage_keys (probed p));
  storage_size p := through (set_calls p) (storage_size (probed p))
}.

(** *** [Cache.LocalStorage]: the constructor

    [this] is built property by property; reading a property that was never
    assigned gives [undefined], and calling a method on [undefined] throws. *)

Record LocalStorage := { _prefix : string; _regexp : string }.

(** The characters the escaping pattern matches: the listed punctuation
    and white space. *)
Definition regexp_special (c : ascii) : bool :=
  existsb (Ascii.eqb c)
    (list_ascii_of_string "-[]{}()*+?.,\^$|#" ++
     map ascii_of_nat [32; 9; 10; 11; 12; 13]%nat)%list.

(** The global replace of the constructor: a backslash goes before each
    special character. *)
Fixpoint escape_regexp (s : string) : string :=
  match s with
  | EmptyString => EmptyString
  | String c rest =>
      if regexp_special c then String "\"%char (String c (escape_regexp rest))
      else String c (escape_regexp rest)
  end.

Definition LocalStorage_new (ns : option string) : exn + LocalStorage :=
  let ns' :=
    match ns with
    | Some s => if String.eqb s "" then "default" else s
    | None => "default"
    end in
  let prefix := "cache-storage." +:+ ns' +:+ "." in
  let this := [("_prefix", prefix)] in
  match prop "prefix_" this with
  | None =>
      inl (TypeError "Cannot read properties of undefined (reading 'replace')")
  | Some p =>
      let escapedPrefix := escape_regexp p in
      inr {| _prefix := prefix; _regexp := "^" +:+ escapedPrefix |}
  end.

(** The methods [Cache.LocalStorage.prototype] defines. *)
Definition LocalStorage_prototype : list string :=
  ["get"; "set"; "size"; "remove"; "keys"].

(** The storage contract the engine calls. *)
Definition contract : list string := ["get"; "set"; "remove"; "keys"; "size"].


(** ** The world an engine instance lives in *)

(** What [setTimeout(_, 0)] queues: the deferred purge of [setItem] and the
    deferred removal callback of [removeItem]. *)
Inductive Task :=
| PurgeTask
| CallbackTask (f : fn) (k v : jsval).

Record Stats := { hits : Z; misses : Z }.

Record World (S : Type) := {
  heap : list CacheItem;            (* the item objects, by reference *)
  _storage : S;
  _maxSize : Z;
  _fillFactor : Q;
  _stats : Stats;
  timers : list Task;               (* pending timeouts, oldest first *)
  called : list (fn * jsval * jsval); (* callbacks that have run *)
  clock : nat -> Z;                 (* the n-th reading of the clock *)
  reads : nat                       (* readings taken so far *)
}.
Arguments heap {S} _.
Arguments _storage {S} _.
Arguments _maxSize {S} _.
Arguments _fillFactor {S} _.
Arguments _stats {S} _.
Arguments timers {S} _.
Arguments called {S} _.
Arguments clock {S} _.
Arguments reads {S} _.

Section Updates.
Context {S : Type}.

Definition with_heap (h : list CacheItem) (w : World S) : World S :=
  {| heap := h; _storage := _storage w; _maxSize := _maxSize w;
     _fillFactor := _fillFactor w; _stats := _stats w; timers := timers w;
     called := called w; clock := clock w; reads := reads w |}.

Definition with_storage (s : S) (w : World S) : World S :=
  {| heap := heap w; _storage := s; _maxSize := _maxSize w;
     _fillFactor := _fillFactor w; _stats := _stats w; timers := timers w;
     called := called w; clock := clock w; reads := reads w |}.

Definition with_stats (st : Stats) (w : World S) : World S :=
  {| heap := heap w; _storage := _storage w; _maxSize := _maxSize w;
     _fillFactor := _fillFactor w; _stats := st; timers := timers w;
     called := called w; clock := clock w; reads := reads w |}.

Definition with_timers (t : list Task) (w : World S) : World S :=
  {| heap := heap w; _storage := _storage w; _maxSize := _maxSize w;
     _fillFactor := _fillFactor w; _stats := _stats w; timers := t;
     called := called w; clock := clock w; reads := reads w |}.

Definition with_called (c : list (fn * jsval * jsval)) (w : World S) : World S :=
  {| heap := heap w; _storage := _storage w; _maxSize := _maxSize w;
     _fillFactor := _fillFactor w; _stats := _stats w; timers := timers w;
     called := c; clock := clock w; reads := reads w |}.

Definition with_reads (n : nat) (w : World S) : World S :=
  {| heap := heap w; _storage := _storage w; _maxSize := _maxSize w;
     _fillFactor := _fillFactor w; _stats := _stats w; timers := timers w;
     called := called w; clock := clock w; reads := n |}.

End Updates.

(** ** Computations: state passing with exceptions

    A thrown exception keeps the state reached so far. *)

Definition M (S A : Type) : Type := World S -> World S * (exn + A).

Definition ret {S A} (a : A) : M S A := fun w => (w, inr a).

Definition throw {S A} (e : exn) : M S A := fun w => (w, inl e).

Definition bind {S A B} (m : M S A) (k : A -> M S B) : M S B :=
  fun w =>
    match m w with
    | (w', inr a) => k a w'
    | (w', inl e) => (w', inl e)
    end.

Definition try_catch {S A} (m : M S A) (handler : exn -> M S A) : M S A :=
  fun w =>
    match m w with
    | (w', inr a) => (w', inr a)
    | (w', inl e) => handler e w'
    end.

Declare Scope js_scope.
Delimit Scope js_scope with js.
Notation "x <- c1 ;; c2" := (bind c1 (fun x => c2))
  (at level 100, c1 at next level, right associativity) : js_scope.
Notation "c1 ;; c2" := (bind c1 (fun _ => c2))
  (at level 100, right associativity) : js_scope.
Local Open Scope js_scope.

Section Methods.
Context {S : Type} `{Storage S}.

(** A call of a method of [this._storage]. *)
Definition call {A} (method : S -> S * (exn + A)) : M S A :=
  fun w => let (s', r) := method (_storage w) in (with_storage s' w, r).

(** [new Date().getTime()] *)
Definition Date_now : M S Z :=
  fun w => (with_reads (Datatypes.S (reads w)) w, inr (clock w (reads w))).

(** [setTimeout(task, 0)] *)
Definition setTimeout (t : Task) : M S unit :=
  fun w => (with_timers (timers w ++ [t]) w, inr tt).

(** Reading the properties of the object [item] refers to; [item] may be
    [undefined], and then the read throws. *)
Definition read_item (item : option loc) : M S CacheItem :=
  fun w =>
    match item with
    | Some l =>
        match heap w !! l with
        | Some it => (w, inr it)
        | None => (w, inl (TypeError "Cannot read properties of undefined"))
        end
    | None => (w, inl (TypeError "Cannot read properties of undefined"))
    end.

Definition update_lastAccessed (t : Z) (it : CacheItem) : CacheItem :=
  {| key := key it; value := value it; options := options it;
     lastAccessed := t |}.

(** [item.lastAccessed = t] *)
Definition write_lastAccessed (l : loc) (t : Z) : M S unit :=
  fun w =>
    match heap w !! l with
    | Some it => (with_heap (<[l := update_lastAccessed t it]> (heap w)) w, inr tt)
    | None => (w, inl (TypeError "Cannot set properties of undefined"))
    end.

(** Allocation of a new object. *)
Definition alloc (it : CacheItem) : M S loc :=
  fun w => (with_heap (heap w ++ [it]) w, inr (length (heap w))).

Definition get_maxSize : M S Z := fun w => (w, inr (_maxSize w)).
Definition get_fillFactor : M S Q := fun w => (w, inr (_fillFactor w)).

Definition hit : M S unit :=
  fun w => (with_stats {| hits := hits (_stats w) + 1;
                          misses := misses (_stats w) |} w, inr tt).

Definition miss : M S unit :=
  fun w => (with_stats {| hits := hits (_stats w);
                          misses := misses (_stats w) + 1 |} w, inr tt).

(** *** [Cache.prototype._isExpired] *)

Definition _isExpired_at (now : Z) (item : CacheItem) : bool :=
  let expired := false in
  let expired :=
    if truthy_num (expirationAbsolute (options item)) &&
       match expirationAbsolute (options item) with
       | Some t => t <? now
       | None => false
       end
    then true else expired in
  let expired :=
    if negb expired && truthy_num (expirationSliding (options item)) then
      match expirationSliding (options item) with
      | Some d =>
          let lastAccess := lastAccessed item + d * 1000 in
          if lastAccess <? now then true else expired
      | None => expired
      end
    else expired in
  expired.

Definition _isExpired (item : option loc) : M S bool :=
  now <- Date_now ;;
  it <- read_item item ;;
  ret (_isExpired_at now it).

(** *** [Cache.prototype.removeItem] *)

Definition removeItem (k : jsval) : M S jsval :=
  item <- call (storage_remove k) ;;
  match item with
  | Some l =>
      it <- read_item (Some l) ;;
      match callback (options it) with
      | Some f => setTimeout (CallbackTask f (key it) (value it))
      | None => ret tt
      end ;;
      ret (value it)
  | None => ret VNull
  end.

(** *** [Cache.prototype.getItem] *)

Definition getItem (k : jsval) : M S jsval :=
  item <- call (storage_get k) ;;
  item <-
    match item with
    | Some l =>
        expired <- _isExpired (Some l) ;;
        if negb expired then
          now <- Date_now ;;
          write_lastAccessed l now ;;
          ret (Some l)
        else
          removeItem k ;;
          ret None
    | None => ret None
    end ;;
  returnItem <-
    match item with
    | Some l => it <- read_item (Some l) ;; ret (value it)
    | None => ret VNull
    end ;;
  (if truthy returnItem then hit else miss) ;;
  ret returnItem.

(** *** [Cache.CacheItem] *)

(** [options.expirationAbsolute.getTime()] is evaluated when the field is
    truthy.  A Date has the method; a number, which is what an earlier use
    of the same bag has left there, has not, and the call throws. *)
Definition getTime_fails (opts : option OptionsArg) : bool :=
  match opts with
  | Some o =>
      match arg_expirationAbsolute o with
      | Some (ATime t) => negb (t =? 0)
      | Some (ADate _) | None => false
      end
  | None => false
  end.

(** What the constructor makes of the options bag: [options || {}], the
    absolute expiration turned into its time value, and a missing priority
    replaced by [Cache.Priority.NORMAL].  A time value that is not truthy
    stays as it is. *)
Definition item_options (opts : option OptionsArg) : Options :=
  let options :=
    match opts with
    | Some o => o
    | None => {| arg_expirationAbsolute := None; arg_expirationSliding := None;
                 arg_priority := None; arg_callback := None |}
    end in
  {| expirationAbsolute :=
       match arg_expirationAbsolute options with
       | Some (ADate d) => Some (getTime d)
       | Some (ATime t) => Some t
       | None => None
       end;
     expirationSliding := arg_expirationSliding options;
     priority :=
       if negb (truthy_num (arg_priority options)) then prop "NORMAL" Priority
       else arg_priority options;
     callback := arg_callback options |}.

Definition CacheItem_new (k v : jsval) (opts : option OptionsArg) : M S loc :=
  if negb (truthy k) then throw (Error "Cache key cannot be null or empty")
  else if getTime_fails opts then
    throw (TypeError "options.expirationAbsolute.getTime is not a function")
  else
    let options := item_options opts in
    now <- Date_now ;;
    alloc {| key := k; value := v; options := options; lastAccessed := now |}.

(** *** [Cache.prototype.size] *)

Definition size : M S Z := call storage_size.

End Methods.

(** ** Numbers and arrays, as the purge uses them *)

(** ToInt32, the conversion the operands of [&] go through: truncate, then
    wrap into the signed 32-bit range. *)
Definition Qtruncate (q : Q) : Z :=
  if Qle_bool 0 q then Qfloor q else Qceiling q.

Definition ToInt32 (q : Q) : Z :=
  (Qtruncate q + 2 ^ 31) mod 2 ^ 32 - 2 ^ 31.

(** [a & b] *)
Definition bitand (a b : Q) : Z := Z.land (ToInt32 a) (ToInt32 b).

(** [Math.round]: the nearest integer, halves going up. *)
Definition Math_round (q : Q) : Z := Qfloor (q + (1 # 2)).

(** [a > b] on numbers *)
Definition Qgtb (a b : Q) : bool := negb (Qle_bool a b).

(** Subtraction and loose inequality on priorities; an absent priority is
    [undefined], which subtracts to NaN ([None]). *)
Definition js_sub (a b : option Z) : option Z :=
  match a, b with
  | Some x, Some y => Some (x - y)
  | _, _ => None
  end.

Definition js_neq (a b : option Z) : bool :=
  match a, b with
  | Some x, Some y => negb (x =? y)
  | None, None => false
  | _, _ => true
  end.

(** The comparison function [_purge] hands to [sort]. *)
Definition purge_compare (a b : CacheItem) : option Z :=
  if js_neq (priority (options a)) (priority (options b))
  then js_sub (priority (options b)) (priority (options a))
  else Some (lastAccessed b - lastAccessed a).

(** [Array.prototype.sort]: a stable sort; [b] goes before [a] when the
    comparison of [a] with [b] is positive, and NaN counts as zero.  Where
    the comparison is NaN for some pair the order is the engine's choice;
    this is the one an insertion sort gives. *)
Definition goes_after {A} (cmp : A -> A -> option Z) (a b : A) : bool :=
  match cmp a b with
  | Some v => 0 <? v
  | None => false
  end.

Fixpoint sort_insert {A} (cmp : A -> A -> option Z) (x : A) (l : list A) :=
  match l with
  | [] => [x]
  | y :: rest =>
      if goes_after cmp x y then y :: sort_insert cmp x rest else x :: l
  end.

Definition Array_sort {A} (cmp : A -> A -> option Z) (l : list A) : list A :=
  foldr (sort_insert cmp) [] l.

Section Purge.
Context {S : Type} `{Storage S}.

(** The scan of [_purge]: expired items are removed, the others collected
    in [tmp].  [tmp] holds what the scan read of each item; nothing writes
    to an item while a purge runs. *)
Fixpoint purge_scan (keys : list jsval) (tmp : list CacheItem)
  : M S (list CacheItem) :=
  match keys with
  | [] => ret tmp
  | k :: rest =>
      item <- call (storage_get k) ;;
      expired <- _isExpired item ;;
      if expired then
        removeItem k ;;
        purge_scan rest tmp
      else
        it <- read_item item ;;
        purge_scan rest (tmp ++ [it])
  end.

(** The [while] loop of [_purge]; [stack] is [tmp] read from its end, so
    that [tmp.pop()] takes the head.  Popping an empty array gives
    [undefined], whose [key] cannot be read. *)
Fixpoint purge_evict (stack : list CacheItem) (purgeSize : Q) : M S unit :=
  if Qgtb (inject_Z (Z.of_nat (length stack))) purgeSize then
    match stack with
    | removeItem_ :: rest =>
        removeItem (key removeItem_) ;;
        purge_evict rest purgeSize
    | [] => throw (TypeError "Cannot read properties of undefined")
    end
  else ret tt.

(** The last part of [_purge]: when more live items were collected than
    [purgeSize], they are sorted and evicted from the end. *)
Definition purge_excess (tmp : list CacheItem) (purgeSize : Q) : M S unit :=
  if Qgtb (inject_Z (Z.of_nat (length tmp))) purgeSize then
    let tmp := Array_sort purge_compare tmp in
    purge_evict (rev tmp) purgeSize
  else ret tt.

(** *** [Cache.prototype._purge] *)

Definition _purge : M S unit :=
  maxSize <- get_maxSize ;;
  fillFactor <- get_fillFactor ;;
  let purgeSize := inject_Z (Math_round (inject_Z (bitand (inject_Z maxSize) fillFactor))) in
  purgeSize <-
    (if maxSize <? 0 then
       n <- size ;;
       ret (inject_Z n * fillFactor)%Q
     else ret purgeSize) ;;
  keys <- call storage_keys ;;
  tmp <- purge_scan keys [] ;;
  purge_excess tmp purgeSize.

(** *** [Cache.prototype._addItem]

    The method calls itself once, with [attempted] set; the inner call
    cannot call again, so two levels unfold the recursion exactly. *)

Definition _addItem_body (self : loc -> bool -> M S unit)
    (item : loc) (attempted : bool) : M S unit :=
  try_catch
    (it <- read_item (Some item) ;;
     call (storage_set (key it) item))
    (fun err =>
       if attempted then throw err
       else
         _purge ;;
         self item true).

Definition _addItem : loc -> bool -> M S unit :=
  _addItem_body (_addItem_body (fun _ _ => ret tt)).

(** *** [Cache.prototype.setItem] *)

Definition setItem (k v : jsval) (opts : option OptionsArg) : M S unit :=
  old <- call (storage_get k) ;;
  match old with
  | Some _ => removeItem k ;; ret tt
  | None => ret tt
  end ;;
  item <- CacheItem_new k v opts ;;
  _addItem item false ;;
  maxSize <- get_maxSize ;;
  if 0 <? maxSize then
    n <- size ;;
    if maxSize <? n then setTimeout PurgeTask else ret tt
  else ret tt.

(** *** [Cache.prototype.clear] *)

Fixpoint clear_loop (keys : list jsval) : M S unit :=
  match keys with
  | [] => ret tt
  | k :: rest => removeItem k ;; clear_loop rest
  end.

Definition clear : M S unit :=
  keys <- call storage_keys ;;
  clear_loop keys.

(** *** [Cache.prototype.getStats] *)

Definition getStats : M S Stats := fun w => (w, inr (_stats w)).

(** *** The event loop

    One turn takes the oldest pending timeout and runs it: the deferred
    purge, or a removal callback (foreign code, recorded in [called]). *)
Definition run_next : M S unit :=
  fun w =>
    match timers w with
    | [] => (w, inr tt)
    | PurgeTask :: rest => _purge (with_timers rest w)
    | CallbackTask f k v :: rest =>
        (with_called (called w ++ [(f, k, v)]) (with_timers rest w), inr tt)
    end.

Fixpoint run_turns (n : nat) : M S unit :=
  match n with
  | O => ret tt
  | Datatypes.S n' => run_next ;; run_turns n'
  end.

(** *** The constructor, [new Cache(maxSize, debug, storage)] *)

Definition Cache (maxSize : option Z) (storage : S) (clk : nat -> Z) : World S :=
  {| heap := [];
     _storage := storage;
     _maxSize := match maxSize with
                 | Some n => if n =? 0 then -1 else n
                 | None => -1
                 end;
     _fillFactor := 3 # 4;
     _stats := {| hits := 0; misses := 0 |};
     timers := [];
     called := [];
     clock := clk;
     reads := 0 |}.

End Purge.

(** ** Vocabulary of the statements *)

(** The expiry rule in the words of the specification. *)
Definition expired_by_rule (now : Z) (it : CacheItem) : Prop :=
  (exists t, expirationAbsolute (options it) = Some t /\ t < now) \/
  (exists d, expirationSliding (options it) = Some d /\
             lastAccessed it + d * 1000 < now).

(** The two conditions as the code tests them: a field that holds zero
    counts as not set. *)
Definition absolute_fires (now : Z) (it : CacheItem) : Prop :=
  exists t, expirationAbsolute (options it) = Some t /\ t <> 0 /\ t < now.

Definition sliding_fires (now : Z) (it : CacheItem) : Prop :=
  exists d, expirationSliding (options it) = Some d /\ d <> 0 /\
            lastAccessed it + d * 1000 < now.

(** The same item with another sliding expiration and access time. *)
Definition with_sliding (sl : option Z) (la : Z) (it : CacheItem) : CacheItem :=
  {| key := key it; value := value it;
     options := {| expirationAbsolute := expirationAbsolute (options it);
                   expirationSliding := sl;
                   priority := priority (options it);
                   callback := callback (options it) |};
     lastAccessed := la |}.

(** The item a backend holds under a key. *)
Definition item_under {S} `{Storage S} (k : jsval) (w : World S)
  : option CacheItem :=
  match snd (storage_get k (_storage w)) with
  | inr (Some l) => heap w !! l
  | _ => None
  end.

(** Backends that keep the references they are given: [get] and [size]
    only read, [get] finds what the last [set] under the key stored, and
    [remove] returns what [get] finds. *)
Class Lawful (S : Type) `{Storage S} : Prop := {
  get_reads : forall k s, fst (storage_get k s) = s;
  size_reads : forall s, fst (storage_size s) = s;
  get_after_set : forall k l s s',
    storage_set k l s = (s', inr tt) -> snd (storage_get k s') = inr (Some l);
  remove_returns : forall k s, snd (storage_remove k s) = snd (storage_get k s)
}.

(** Backends whose [set] never throws. *)
Definition never_full (S : Type) `{Storage S} : Prop :=
  forall k l s, snd (storage_set k l s) = inr tt.

(** The removal callbacks among the pending timeouts. *)
Definition is_callback (t : Task) : bool :=
  match t with
  | CallbackTask _ _ _ => true
  | PurgeTask => false
  end.

Definition callbacks (ts : list Task) : list Task := List.filter is_callback ts.

(** The callback invocation the removal of an item schedules, if any. *)
Definition callback_of (k v : jsval) (opts : option OptionsArg) : list Task :=
  match callback (item_options opts) with
  | Some f => [CallbackTask f k v]
  | None => []
  end.

(** The operations other than [getItem], and runs of them; a caller may
    catch what an operation throws and go on, and between two operations
    the event loop may run a pending timeout. *)
Inductive Op :=
| OpSetItem (k v : jsval) (opts : option OptionsArg)
| OpRemoveItem (k : jsval)
| OpClear
| OpPurge
| OpTurn.

Section Runs.
Context {S : Type} `{Storage S}.

Definition run_op (o : Op) : M S unit :=
  match o with
  | OpSetItem k v opts => setItem k v opts
  | OpRemoveItem k => removeItem k ;; ret tt
  | OpClear => clear
  | OpPurge => _purge
  | OpTurn => run_next
  end.

Fixpoint run_ops (os : list Op) : M S unit :=
  match os with
  | [] => ret tt
  | o :: rest => try_catch (run_op o) (fun _ => ret tt) ;; run_ops rest
  end.

End Runs.

(** Eviction rank: [a] goes no later than [b] when its priority is lower,
    or equal with an access that is not more recent. *)
Definition rank_le (a b : CacheItem) : Prop :=
  match priority (options a), priority (options b) with
  | Some pa, Some pb =>
      pa < pb \/ (pa = pb /\ lastAccessed a <= lastAccessed b)
  | _, _ => False
  end.

Definition has_priority (it : CacheItem) : Prop :=
  is_Some (priority (options it)).

(** A computation preserves an observation [f] of the world when [f] reads
    the same before and after it, whether it returns or throws. *)
Definition preserves {S A X} (f : World S -> X) (m : M S A) : Prop :=
  forall w, f (fst (m w)) = f w.

(** Observations no method of the engine touches except through the heap,
    the backend, the timers or the clock. *)
Record Inert {S X} (f : World S -> X) : Prop := {
  inert_heap : forall h w, f (with_heap h w) = f w;
  inert_storage : forall s w, f (with_storage s w) = f w;
  inert_timers : forall t w, f (with_timers t w) = f w;
  inert_called : forall c w, f (with_called c w) = f w;
  inert_reads : forall n w, f (with_reads n w) = f w
}.

(** Observations that the timers, the clock and the reading methods of the
    backend ([get], [remove], [keys], [size]) leave alone. *)
Record Quiet {S} `{Storage S} {X} (f : World S -> X) : Prop := {
  quiet_timers : forall t w, f (with_timers t w) = f w;
  quiet_reads : forall n w, f (with_reads n w) = f w;
  quiet_get : forall k, preserves f (call (storage_get k));
  quiet_remove : forall k, preserves f (call (storage_remove k));
  quiet_keys : preserves f (call storage_keys);
  quiet_size : preserves f (call storage_size)
}.

(** The number of [set] calls a probed backend has seen. *)
Definition set_count {B} (w : World (Probe B)) : nat := set_calls (_storage w).

(** The options object of an item, as a later call finds it when the
    caller passes that object again. *)
Definition passed_again (o : Options) : OptionsArg :=
  {| arg_expirationAbsolute := option_map ATime (expirationAbsolute o);
     arg_expirationSliding := expirationSliding o;
     arg_priority := priority o;
     arg_callback := callback o |}.

(** The item the constructor builds from its arguments at time [t]. *)
Definition fresh_item (k v : jsval) (opts : option OptionsArg) (t : Z) : CacheItem :=
  {| key := k; value := v; options := item_options opts; lastAccessed := t |}.

Definition no_expiration (opts : option OptionsArg) : Prop :=
  expirationAbsolute (item_options opts) = None /\
  expirationSliding (item_options opts) = None.

(** The timeout the removal of an item schedules. *)
Definition removal_callback (it : CacheItem) : list Task :=
  match callback (options it) with
  | Some f => [CallbackTask f (key it) (value it)]
  | None => []
  end.

(** ** Sample inputs *)

(** A clock that advances by one millisecond per reading. *)
Definition ticking (n : nat) : Z := 1000 + Z.of_nat n.

Definition no_options : OptionsArg :=
  {| arg_expirationAbsolute := None; arg_expirationSliding := None;
     arg_priority := None; arg_callback := None |}.

Definition with_priority (p : Z) : OptionsArg :=
  {| arg_expirationAbsolute := None; arg_expirationSliding := None;
     arg_priority := Some p; arg_callback := None |}.

Definition with_callback (f : fn) : OptionsArg :=
  {| arg_expirationAbsolute := None; arg_expirationSliding := None;
     arg_priority := None; arg_callback := Some f |}.

(** A bag whose absolute expiration, 500 ms after the epoch, has passed on
    every clock of these samples, with a removal callback. *)
Definition past_absolute : OptionsArg :=
  {| arg_expirationAbsolute := Some (ADate {| getTime := 500 |});
     arg_expirationSliding := None;
     arg_priority := None; arg_callback := Some 8%nat |}.

(** A bag with an absolute expiration far ahead, with a removal callback. *)
Definition far_absolute : OptionsArg :=
  {| arg_expirationAbsolute := Some (ADate {| getTime := 5000 |});
     arg_expirationSliding := None;
     arg_priority := None; arg_callback := Some 7%nat |}.

(** An item whose absolute expiration is the epoch itself. *)
Definition epoch_item : CacheItem :=
  {| key := VStr "k"; value := VNum 1;
     options := item_options (Some {| arg_expirationAbsolute := Some (ADate {| getTime := 0 |});
                                      arg_expirationSliding := None;
                                      arg_priority := Some 2;
                                      arg_callback := None |});
     lastAccessed := 1000 |}.

(** [maxSize = 2], then "a", "b", "c" in this order. *)
Definition three_inserts {S} `{Storage S} : M S unit :=
  setItem (VStr "a") (VNum 1) (Some (with_priority 2)) ;;
  setItem (VStr "b") (VNum 2) (Some (with_priority 2)) ;;
  setItem (VStr "c") (VNum 3) (Some (with_priority 2)).

(** A cache over a probed backend of capacity zero, in which the item for
    the key "b" has just been constructed (it is object 0). *)
Definition full_backend : Probe Quota :=
  {| probed := {| quota := 0; held := Basic_new |}; set_calls := 0 |}.

Definition full_world : World (Probe Quota) :=
  fst (CacheItem_new (VStr "b") (VNum 2) None (Cache None full_backend ticking)).

Definition b_item : CacheItem :=
  {| key := VStr "b"; value := VNum 2; options := item_options None;
     lastAccessed := 1000 |}.

(** An unbounded cache over a probed backend of capacity one that holds
    "a" with a removal callback. *)
Definition crowded_world : World (Probe Quota) :=
  fst (setItem (VStr "a") (VNum 1) (Some (with_callback 7%nat))
         (Cache None {| probed := {| quota := 1; held := Basic_new |};
                        set_calls := 0 |} ticking)).

(** Two live items of priorities Low and High. *)
Definition low_item : CacheItem :=
  fresh_item (VStr "lo") (VNum 1) (Some (with_priority 1)) 1001.

Definition high_item : CacheItem :=
  fresh_item (VStr "hi") (VNum 2) (Some (with_priority 3)) 1000.

(** An unbounded cache over a backend with [size], holding "hi" (High)
    and "lo" (Low), inserted in this order. *)
Definition two_ranks : World Sized :=
  fst ((setItem (VStr "hi") (VNum 2) (Some (with_priority 3)) ;;
        setItem (VStr "lo") (VNum 1) (Some (with_priority 1)))
         (Cache None {| base := Basic_new |} ticking)).

(** An unbounded cache over a backend of capacity three that holds "l"
    (Low), "m" (stored without a priority) and "h" (High). *)
Definition mixed_world : World Quota :=
  fst ((setItem (VStr "l") (VNum 1) (Some (with_priority 1)) ;;
        setItem (VStr "m") (VNum 2) (Some no_options) ;;
        setItem (VStr "h") (VNum 3) (Some (with_priority 3)))
         (Cache None {| quota := 3; held := Basic_new |} ticking)).

Definition priority_under {S} `{Storage S} (k : jsval) (w : World S)
  : option (option Z) :=
  option_map (fun it => priority (options it)) (item_under k w).

(** ** Further vocabulary *)

(** The deferred purges among the pending timeouts. *)
Definition purges (ts : list Task) : list Task :=
  List.filter (fun t => negb (is_callback t)) ts.

(** Observations that no method writes to, except by scheduling the
    deferred purge or by running a callback: they ignore the heap, the
    backend, the clock, the counters and the scheduling of a removal
    callback. *)
Record Untouched {S X} (f : World S -> X) : Prop := {
  un_heap : forall h w, f (with_heap h w) = f w;
  un_storage : forall s w, f (with_storage s w) = f w;
  un_reads : forall n w, f (with_reads n w) = f w;
  un_stats : forall st w, f (with_stats st w) = f w;
  un_callback : forall g k v w,
    f (with_timers (timers w ++ [CallbackTask g k v]) w) = f w
}.

(** A caller's actions: reads and the other operations.  A run keeps the
    values the reads returned; an action that throws is skipped. *)
Inductive Act :=
| ActGetItem (k : jsval)
| ActOp (o : Op).

Section Acts.
Context {S : Type} `{Storage S}.

Definition run_act (a : Act) : M S (list jsval) :=
  match a with
  | ActGetItem k => try_catch (r <- getItem k ;; ret [r]) (fun _ => ret [])
  | ActOp o => try_catch (run_op o ;; ret []) (fun _ => ret [])
  end.

Fixpoint run_acts (acts : list Act) : M S (list jsval) :=
  match acts with
  | [] => ret []
  | a :: rest =>
      rs <- run_act a ;;
      rs' <- run_acts rest ;;
      ret (rs ++ rs')
  end.

End Acts.

(** How many of the values are truthy, how many are not. *)
Definition count_truthy (rs : list jsval) : Z :=
  Z.of_nat (length (List.filter truthy rs)).

Definition count_falsy (rs : list jsval) : Z :=
  Z.of_nat (length (List.filter (fun r => negb (truthy r)) rs)).

(** A clock that advances by 900 milliseconds per reading. *)
Definition striding (n : nat) : Z := 1000 + 900 * Z.of_nat n.

(** A computation keeps an invariant [P] of the world when [P] holds after
    it whenever it held before, whether it returns or throws. *)
Definition keeps {S A} (P : World S -> Prop) (m : M S A) : Prop :=
  forall w, P w -> P (fst (m w)).

(** Backends of the [Cache.Basic] kind: an object used as a map from
    property names to items, of which [entries] lists the own properties in
    enumeration order.  [get] reads the property, [remove] deletes it and
    returns what it held, [keys] lists the names, a [set] that returns has
    assigned the property and one that throws has changed no entry, and
    [size] changes none. *)
Class Shelf (S : Type) `{Storage S} (entries : S -> list (string * loc))
  : Prop := {
  shelf_get : forall k s,
    storage_get k s = (s, inr (prop (ToPropertyKey k) (entries s)));
  shelf_remove : forall k s,
    snd (storage_remove k s) = inr (prop (ToPropertyKey k) (entries s)) /\
    entries (fst (storage_remove k s))
      = delete_prop (ToPropertyKey k) (entries s);
  shelf_keys : forall s,
    storage_keys s = (s, inr (map (fun p => VStr (fst p)) (entries s)));
  shelf_set : forall k l s,
    entries (fst (storage_set k l s)) =
      match snd (storage_set k l s) with
      | inr _ => assign (ToPropertyKey k) l (entries s)
      | inl _ => entries s
      end;
  shelf_size : forall s, entries (fst (storage_size s)) = entries s
}.

Section Shelves.
Context {S : Type} (entries : S -> list (string * loc)).

(** An entry is in order when it refers to an item whose own key names it. *)
Definition entry_ok (w : World S) (p : string * loc) : Prop :=
  exists it, heap w !! snd p = Some it /\ ToPropertyKey (key it) = fst p.

(** The data-model invariant: the names of the entries are distinct and
    every entry is in order. *)
Definition tidy (w : World S) : Prop :=
  List.NoDup (map fst (entries (_storage w))) /\
  Forall (entry_ok w) (entries (_storage w)).

(** The items the backend holds, in enumeration order. *)
Definition shelf_items (w : World S) : list CacheItem :=
  omap (fun p => heap w !! snd p) (entries (_storage w)).

(** The callbacks that the removal of the items held would schedule. *)
Definition pending (w : World S) : list Task :=
  flat_map removal_callback (shelf_items w).

End Shelves.

(** Calls on a [Cache.Basic] object, and the object after a series of them. *)
Inductive BasicCall :=
| CallGet (k : jsval)
| CallSet (k : jsval) (v : loc)
| CallRemove (k : jsval)
| CallKeys.

Definition Basic_call (b : Basic) (c : BasicCall) : Basic :=
  match c with
  | CallSet k v => Basic_set k v b
  | CallRemove k => fst (Basic_remove k b)
  | CallGet _ | CallKeys => b
  end.

Definition Basic_calls (cs : list BasicCall) : Basic :=
  fold_left Basic_call cs Basic_new.

(** The names a plain object answers without holding them: the properties
    of [Object.prototype], "__proto__" among them.  Under these names
    [this._items[key]] reads the prototype, which [Basic_get] does not
    describe. *)
Definition Object_prototype : list string :=
  ["constructor"; "__defineGetter__"; "__defineSetter__"; "hasOwnProperty";
   "__lookupGetter__"; "__lookupSetter__"; "isPrototypeOf";
   "propertyIsEnumerable"; "toString"; "valueOf"; "__proto__";
   "toLocaleString"].

(** Keys under whose name [this._items] answers own properties only; a
    number is to be an integer that prints in full, which those below 2^53
    do. *)
Definition plain_key (k : jsval) : bool :=
  negb (existsb (String.eqb (ToPropertyKey k)) Object_prototype) &&
  match k with
  | VNum n => Z.abs n <? 2 ^ 53
  | _ => true
  end.

Definition plain_call (c : BasicCall) : bool :=
  match c with
  | CallGet k | CallSet k _ | CallRemove k => plain_key k
  | CallKeys => true
  end.

(** The counter agrees with the properties, and no name is listed twice. *)
Definition Basic_ok (b : Basic) : Prop :=
  _count b = Z.of_nat (length (_items b)) /\ List.NoDup (map fst (_items b)).

(** The items of a list of entries, read through a heap. *)
Definition items_in (h : list CacheItem) (es : list (string * loc)) :=
  omap (fun p : string * loc => h !! snd p) es.

(** What is left of the entries once each of [ks] has been deleted. *)
Definition delete_all (ks : list jsval) (es : list (string * loc)) :=
  fold_left (fun es k => delete_prop (ToPropertyKey k) es) ks es.

(** The task [t] is among the timers. *)
Definition waits {S} (t : Task) (w : World S) : Prop := In t (timers w).

(** * Theorems *)

(** ** Expiration *)

Lemma isExpired_absolute (now : Z) (it : CacheItem) :
  absolute_fires now it -> _isExpired_at now it = true.
Proof.
  intros (t & Ht & Hne & Hlt). unfold _isExpired_at. rewrite Ht. simpl.
  apply Z.eqb_neq in Hne. rewrite Hne. simpl.
  apply Z.ltb_lt in Hlt. rewrite Hlt. reflexivity.
Qed.

Lemma isExpired_sliding (now : Z) (it : CacheItem) :
  sliding_fires now it -> _isExpired_at now it = true.
Proof.
  intros (d & Hd & Hne & Hlt). unfold _isExpired_at. rewrite Hd. simpl.
  apply Z.eqb_neq in Hne. rewrite Hne. simpl.
  apply Z.ltb_lt in Hlt. rewrite Hlt.
  destruct (truthy_num _ && _); reflexivity.
Qed.

Lemma isExpired_fires (now : Z) (it : CacheItem) :
  _isExpired_at now it = true -> absolute_fires now it \/ sliding_fires now it.
Proof.
  unfold _isExpired_at, absolute_fires, sliding_fires.
  destruct (expirationAbsolute (options it)) as [t|];
    destruct (expirationSliding (options it)) as [d|]; simpl;
    repeat match goal with
      | |- context [?a =? ?b] => destruct (Z.eqb_spec a b); simpl
      | |- context [?a <? ?b] => destruct (Z.ltb_spec a b); simpl
      end; intros Hx; try discriminate;
    solve [ left; eexists; repeat split; eauto
          | right; eexists; repeat split; eauto ].
Qed.

(** C7, as the code has it: an item is judged expired exactly when its
    absolute expiration is set to a non-zero instant strictly before the
    current time, or its sliding expiration is set to a non-zero number of
    seconds and [lastAccessed] plus that many seconds is strictly before the
    current time; and when the absolute expiration fires the verdict does
    not depend on the sliding expiration or the access time. *)
Theorem isExpired_rule (now : Z) (it : CacheItem) :
  (_isExpired_at now it = true <->
   absolute_fires now it \/ sliding_fires now it) /\
  (absolute_fires now it ->
   forall sl la, _isExpired_at now (with_sliding sl la it) = true).
Proof.
  split.
  - split.
    + apply isExpired_fires.
    + intros [Ha | Hs]; [apply isExpired_absolute | apply isExpired_sliding];
        assumption.
  - intros Ha sl la. apply isExpired_absolute.
    destruct Ha as (t & Ht & Hne & Hlt). exists t. simpl. auto.
Qed.

Lemma isExpired_rule_witness :
  absolute_fires 2000 (with_sliding None 1500 (
    {| key := VStr "k"; value := VNum 1;
       options := {| expirationAbsolute := Some 1200; expirationSliding := Some 60;
                     priority := Some 2; callback := None |};
       lastAccessed := 1000 |})) /\
  _isExpired_at 2000
    {| key := VStr "k"; value := VNum 1;
       options := {| expirationAbsolute := Some 1200; expirationSliding := None;
                     priority := Some 2; callback := None |};
       lastAccessed := 1500 |} = true.
Proof.
  assert (Ha : absolute_fires 2000
    {| key := VStr "k"; value := VNum 1;
       options := {| expirationAbsolute := Some 1200; expirationSliding := Some 60;
                     priority := Some 2; callback := None |};
       lastAccessed := 1000 |}).
  { exists 1200. simpl. repeat split. discriminate. }
  split.
  - exists 1200. simpl. repeat split. discriminate.
  - exact (proj2 (isExpired_rule 2000 _) Ha None 1500).
Defined.

(** C7, as stated, fails: an item whose absolute expiration is the epoch
    (time value 0) is expired by the rule at any later time, and the code
    judges it live. *)
Lemma isExpired_epoch_counterexample :
  expired_by_rule 1000 epoch_item /\ _isExpired_at 1000 epoch_item = false.
Proof.
  split.
  - left. exists 0. split; reflexivity.
  - reflexivity.
Qed.

(** ** The default priority *)

(** C3, at the failing input: with no priority in the options bag the
    constructor reads [Cache.Priority.NORMAL], a property the enumeration
    does not have, so the stored item's priority is [undefined], not the
    value 2 of [Normal]. *)
Theorem default_priority_is_undefined :
  prop "Normal" Priority = Some 2 /\
  prop "NORMAL" Priority = None /\
  (forall ea es cb,
     priority (item_options (Some {| arg_expirationAbsolute := ea;
                                     arg_expirationSliding := es;
                                     arg_priority := None;
                                     arg_callback := cb |})) = None) /\
  priority (item_options None) = None /\
  option_map (fun it => priority (options it))
    (item_under (VStr "k")
       (fst (setItem (VStr "k") (VNum 1) (Some no_options)
               (Cache None Basic_new ticking)))) = Some None.
Proof. repeat split. Qed.

(** ** The shipped backends *)

(** C4, at the failing inputs: [Cache.Basic] has no [size] method, so the
    engine's [size()] and the capacity check of [setItem] throw a TypeError
    on it; and the constructor of [Cache.LocalStorage] reads [this.prefix_],
    which was never assigned, and throws for every namespace. *)
Theorem shipped_backends_break_contract :
  has_method Basic_prototype "size" = false /\
  forallb (has_method LocalStorage_prototype) contract = true /\
  (forall w : World Basic, snd (size w) = inl (not_a_function "size")) /\
  (forall clk,
     snd (setItem (VStr "a") (VNum 1) None (Cache (Some 1) Basic_new clk))
     = inl (not_a_function "size")) /\
  (forall ns,
     LocalStorage_new ns
     = inl (TypeError "Cannot read properties of undefined (reading 'replace')")).
Proof. repeat split. Qed.

(** ** Invalid keys *)

(** C5, at the failing input: [setItem(null, 2)] on a cache that holds an
    entry under the key "null" throws the invalid-key error only after
    that entry was removed and its callback scheduled. *)
Theorem invalid_key_removes_prior_entry :
  let w1 := fst (setItem (VStr "null") (VNum 1) (Some (with_callback 7%nat))
                   (Cache None Basic_new ticking)) in
  let w2 := fst (setItem VNull (VNum 2) None w1) in
  snd (setItem VNull (VNum 2) None w1)
    = inl (Error "Cache key cannot be null or empty") /\
  Basic_keys (_storage w1) = [VStr "null"] /\
  Basic_keys (_storage w2) = [] /\
  timers w1 = [] /\
  timers w2 = [CallbackTask 7%nat (VStr "null") (VNum 1)].
Proof. repeat split. Qed.

(** ** The purge target *)

Lemma bitand_fillFactor (maxSize : Z) : bitand (inject_Z maxSize) (3 # 4) = 0.
Proof. unfold bitand. replace (ToInt32 (3 # 4)) with 0 by reflexivity. apply Z.land_0_r. Qed.

(** C1, at the failing input: with [maxSize = 2] and a backend that has
    [size], the third insert schedules the purge; its target is
    [Math.round(2 & 0.75) = 0], not [Math.round(2 * 0.75) = 2], and the
    purge evicts all three keys. *)
Theorem purge_target_is_zero :
  (forall maxSize, Math_round (inject_Z (bitand (inject_Z maxSize) (3 # 4))) = 0) /\
  Math_round (inject_Z 2 * (3 # 4)) = 2 /\
  let w0 := Cache (Some 2) {| base := Basic_new |} ticking in
  let w3 := fst (three_inserts w0) in
  let w4 := fst (run_next w3) in
  Basic_keys (base (_storage w3)) = [VStr "a"; VStr "b"; VStr "c"] /\
  timers w3 = [PurgeTask] /\
  snd (run_next w3) = inr tt /\
  Basic_keys (base (_storage w4)) = [] /\
  timers w4 = [].
Proof.
  split; [| repeat split].
  intros maxSize. rewrite bitand_fillFactor. reflexivity.
Qed.

(** ** Sequencing *)

Lemma bind_ok {S A B} (m : M S A) (k : A -> M S B) (w w' : World S) (a : A) :
  m w = (w', inr a) -> bind m k w = k a w'.
Proof. intros Hm. unfold bind. rewrite Hm. reflexivity. Qed.

Lemma bind_inr {S A B} (m : M S A) (k : A -> M S B) (w w' : World S) (b : B) :
  bind m k w = (w', inr b) ->
  exists w0 a, m w = (w0, inr a) /\ k a w0 = (w', inr b).
Proof.
  unfold bind. destruct (m w) as [w0 [e | a]]; [discriminate |].
  intros Hk. exists w0, a. split; [reflexivity | exact Hk].
Qed.

(** ** Frame lemmas *)

Section Frames.
Context {S : Type} `{Storage S} {X : Type} (f : World S -> X).

Lemma preserves_ret {A} (a : A) : preserves f (ret a).
Proof. intros w. reflexivity. Qed.

Lemma preserves_throw {A} (e : exn) : preserves f (throw (A := A) e).
Proof. intros w. reflexivity. Qed.

Lemma preserves_bind {A B} (m : M S A) (k : A -> M S B) :
  preserves f m -> (forall a, preserves f (k a)) -> preserves f (bind m k).
Proof.
  intros Hm Hk w. unfold bind. specialize (Hm w).
  destruct (m w) as [w' [e | a]]; simpl in *.
  - exact Hm.
  - rewrite Hk. exact Hm.
Qed.

Lemma preserves_try_catch {A} (m : M S A) (h : exn -> M S A) :
  preserves f m -> (forall e, preserves f (h e)) -> preserves f (try_catch m h).
Proof.
  intros Hm Hh w. unfold try_catch. specialize (Hm w).
  destruct (m w) as [w' [e | a]]; simpl in *.
  - rewrite Hh. exact Hm.
  - exact Hm.
Qed.

Lemma preserves_read_item (item : option loc) : preserves f (read_item item).
Proof.
  intros w. unfold read_item.
  destruct item as [l |]; [destruct (heap w !! l) |]; reflexivity.
Qed.

Lemma preserves_get_maxSize : preserves f get_maxSize.
Proof. intros w. reflexivity. Qed.

Lemma preserves_get_fillFactor : preserves f get_fillFactor.
Proof. intros w. reflexivity. Qed.

End Frames.

Create HintDb frame.
#[local] Hint Resolve preserves_ret preserves_throw preserves_read_item
  preserves_get_maxSize preserves_get_fillFactor : frame.

(** Goes through the structure of a method, leaving the calls it cannot
    settle from the hint base. *)
Ltac frame :=
  repeat first
    [ match goal with
      | |- preserves _ (bind _ _) => apply preserves_bind
      | |- preserves _ (try_catch _ _) => apply preserves_try_catch
      | |- forall _, _ => intro
      | |- preserves _ (match ?x with _ => _ end) => destruct x
      end
    | solve [eauto with frame] ].

Section QuietFrames.
Context {S : Type} `{Storage S} {X : Type} (f : World S -> X).

Lemma preserves_Date_now : Quiet f -> preserves f Date_now.
Proof. intros Q w. apply (quiet_reads f Q). Qed.

Lemma preserves_setTimeout (t : Task) : Quiet f -> preserves f (setTimeout t).
Proof. intros Q w. apply (quiet_timers f Q). Qed.

Lemma preserves_size : Quiet f -> preserves f size.
Proof. intros Q. apply (quiet_size f Q). Qed.

Lemma preserves_isExpired (item : option loc) :
  Quiet f -> preserves f (_isExpired item).
Proof.
  intros Q. unfold _isExpired. frame. apply preserves_Date_now, Q.
Qed.

Lemma preserves_removeItem (k : jsval) : Quiet f -> preserves f (removeItem k).
Proof.
  intros Q. unfold removeItem. frame.
  - apply (quiet_remove f Q).
  - apply preserves_setTimeout, Q.
Qed.

Lemma preserves_clear_loop (keys : list jsval) :
  Quiet f -> preserves f (clear_loop keys).
Proof.
  intros Q. induction keys as [| k rest IH]; cbn [clear_loop]; frame.
  apply preserves_removeItem, Q.
Qed.

Lemma preserves_clear : Quiet f -> preserves f clear.
Proof.
  intros Q. unfold clear. frame.
  - apply (quiet_keys f Q).
  - apply preserves_clear_loop, Q.
Qed.

Lemma preserves_purge_scan (keys : list jsval) (tmp : list CacheItem) :
  Quiet f -> preserves f (purge_scan keys tmp).
Proof.
  intros Q. revert tmp. induction keys as [| k rest IH]; intros tmp; cbn [purge_scan]; frame.
  - apply (quiet_get f Q).
  - apply preserves_isExpired, Q.
  - apply preserves_removeItem, Q.
Qed.

Lemma preserves_purge_evict (stack : list CacheItem) (purgeSize : Q) :
  Quiet f -> preserves f (purge_evict stack purgeSize).
Proof.
  intros Q. induction stack as [| it rest IH]; cbn [purge_evict]; frame.
  apply preserves_removeItem, Q.
Qed.

Lemma preserves_purge_excess (tmp : list CacheItem) (purgeSize : Q) :
  Quiet f -> preserves f (purge_excess tmp purgeSize).
Proof.
  intros Q. unfold purge_excess. frame. apply preserves_purge_evict, Q.
Qed.

Lemma preserves_purge : Quiet f -> preserves f _purge.
Proof.
  intros Q. unfold _purge. frame.
  - apply preserves_size, Q.
  - apply (quiet_keys f Q).
  - apply preserves_purge_scan, Q.
  - apply preserves_purge_excess, Q.
Qed.

End QuietFrames.

Section InertFrames.
Context {S : Type} `{Storage S} {X : Type} (f : World S -> X).

Lemma preserves_call {A} (method : S -> S * (exn + A)) :
  Inert f -> preserves f (call method).
Proof.
  intros I w. unfold call. destruct (method (_storage w)) as [s' r]. simpl.
  apply (inert_storage f I).
Qed.

Lemma Inert_Quiet : Inert f -> Quiet f.
Proof.
  intros I. split; intros; try apply preserves_call; try assumption.
  - apply (inert_timers f I).
  - apply (inert_reads f I).
Qed.

Lemma preserves_alloc (it : CacheItem) : Inert f -> preserves f (alloc it).
Proof. intros I w. apply (inert_heap f I). Qed.

Lemma preserves_write_lastAccessed (l : loc) (t : Z) :
  Inert f -> preserves f (write_lastAccessed l t).
Proof.
  intros I w. unfold write_lastAccessed. destruct (heap w !! l); [| reflexivity].
  apply (inert_heap f I).
Qed.

Lemma preserves_CacheItem_new (k v : jsval) (opts : option OptionsArg) :
  Inert f -> preserves f (CacheItem_new k v opts).
Proof.
  intros I. unfold CacheItem_new. destruct (negb (truthy k)); frame.
  - apply preserves_Date_now, Inert_Quiet, I.
  - apply preserves_alloc, I.
Qed.

Lemma preserves_addItem (item : loc) (attempted : bool) :
  Inert f -> preserves f (_addItem item attempted).
Proof.
  intros I. unfold _addItem, _addItem_body.
  frame; try (apply preserves_call, I); try (apply preserves_purge, Inert_Quiet, I).
Qed.

Lemma preserves_setItem (k v : jsval) (opts : option OptionsArg) :
  Inert f -> preserves f (setItem k v opts).
Proof.
  intros I. pose proof (Inert_Quiet I) as Q. unfold setItem. frame.
  - apply preserves_call, I.
  - apply preserves_removeItem, Q.
  - apply preserves_CacheItem_new, I.
  - apply preserves_addItem, I.
  - apply preserves_size, Q.
  - apply preserves_setTimeout, Q.
Qed.

Lemma preserves_run_next : Inert f -> preserves f run_next.
Proof.
  intros I w. unfold run_next. destruct (timers w) as [| [| g k v] rest].
  - reflexivity.
  - rewrite (preserves_purge f (Inert_Quiet I)). apply (inert_timers f I).
  - simpl. rewrite (inert_called f I). apply (inert_timers f I).
Qed.

Lemma preserves_run_op (o : Op) : Inert f -> preserves f (run_op o).
Proof.
  intros I. pose proof (Inert_Quiet I) as Q. destruct o; cbn [run_op].
  - apply preserves_setItem, I.
  - frame. apply preserves_removeItem, Q.
  - apply preserves_clear, Q.
  - apply preserves_purge, Q.
  - apply preserves_run_next, I.
Qed.

Lemma preserves_run_ops (os : list Op) : Inert f -> preserves f (run_ops os).
Proof.
  intros I. induction os as [| o rest IH]; cbn [run_ops]; frame.
  apply preserves_run_op, I.
Qed.

End InertFrames.

Lemma Inert_stats {S} : Inert (@_stats S).
Proof. split; reflexivity. Qed.

Lemma Inert_clock {S} : Inert (@clock S).
Proof. split; reflexivity. Qed.

Lemma Quiet_heap {S} `{Storage S} : Quiet (@heap S).
Proof.
  split; unfold preserves; try reflexivity; intros; unfold call;
    match goal with |- context [?m (_storage ?w)] => destruct (m (_storage w)) end;
    reflexivity.
Qed.

Lemma Quiet_set_count {B} `{Storage B} : Quiet (@set_count B).
Proof. split; unfold preserves; reflexivity. Qed.

(** ** Statistics *)

(** C10: [setItem], [removeItem], [clear] and the purge pass leave the
    [hits] and [misses] counters as they were, whether they return or throw,
    and so does every sequence of them, with the deferred purges and
    callbacks that run in between. *)
Theorem stats_change_only_in_getItem {S} `{Storage S} :
  (forall k v opts (w : World S), _stats (fst (setItem k v opts w)) = _stats w) /\
  (forall k (w : World S), _stats (fst (removeItem k w)) = _stats w) /\
  (forall w : World S, _stats (fst (clear w)) = _stats w) /\
  (forall w : World S, _stats (fst (_purge w)) = _stats w) /\
  (forall os (w : World S), _stats (fst (run_ops os w)) = _stats w).
Proof.
  pose proof (@Inert_stats S) as I. pose proof (Inert_Quiet _ I) as Q.
  repeat split; intros.
  - apply preserves_setItem, I.
  - apply preserves_removeItem, Q.
  - apply preserves_clear, Q.
  - apply preserves_purge, Q.
  - apply preserves_run_ops, I.
Qed.

(** A [getItem] that returns has added one to exactly one of the two
    counters. *)
Lemma getItem_counts_once {S} `{Storage S} (k r : jsval) (w w' : World S) :
  getItem k w = (w', inr r) ->
  (hits (_stats w') = hits (_stats w) + 1 /\
   misses (_stats w') = misses (_stats w)) \/
  (hits (_stats w') = hits (_stats w) /\
   misses (_stats w') = misses (_stats w) + 1).
Proof.
  pose proof (@Inert_stats S) as I. pose proof (Inert_Quiet _ I) as Q.
  unfold getItem. intros Hrun.
  apply bind_inr in Hrun as (wa & item & Hget & Hrun).
  apply bind_inr in Hrun as (wb & item' & Hcheck & Hrun).
  apply bind_inr in Hrun as (wc & returnItem & Hread & Hrun).
  apply bind_inr in Hrun as (wd & [] & Hcount & Hret).
  injection Hret as <- _.
  assert (Ha : _stats wa = _stats w).
  { pose proof (preserves_call _ (storage_get k) I w) as Hp.
    rewrite Hget in Hp. exact Hp. }
  assert (Hb : _stats wb = _stats wa).
  { assert (Hp : preserves (@_stats S)
      match item with
      | Some l =>
          expired <- _isExpired (Some l) ;;
          if negb expired then
            now <- Date_now ;; write_lastAccessed l now ;; ret (Some l)
          else removeItem k ;; ret None
      | None => ret None
      end).
    { frame.
      - apply preserves_isExpired, Q.
      - apply preserves_Date_now, Q.
      - apply preserves_write_lastAccessed, I.
      - apply preserves_removeItem, Q. }
    specialize (Hp wa). rewrite Hcheck in Hp. exact Hp. }
  assert (Hc : _stats wc = _stats wb).
  { assert (Hp : preserves (@_stats S)
      match item' with
      | Some l => it <- read_item (Some l) ;; ret (value it)
      | None => ret VNull
      end) by frame.
    specialize (Hp wb). rewrite Hread in Hp. exact Hp. }
  rewrite <- Ha, <- Hb, <- Hc.
  destruct (truthy returnItem); injection Hcount as <-; simpl; [left | right];
    split; reflexivity.
Qed.

(** ** Insertion failure *)

Lemma read_item_Some {S} (w : World S) (l : loc) (it : CacheItem) :
  heap w !! l = Some it -> read_item (Some l) w = (w, inr it).
Proof. intros Hl. unfold read_item. rewrite Hl. reflexivity. Qed.

Lemma call_heap {S A} (method : S -> S * (exn + A)) (w : World S) :
  heap (fst (call method w)) = heap w.
Proof. unfold call. destruct (method (_storage w)). reflexivity. Qed.

Lemma call_set_counts {B} `{Storage B} (k : jsval) (l : loc) (w : World (Probe B)) :
  set_count (fst (call (storage_set k l) w)) = Datatypes.S (set_count w).
Proof. reflexivity. Qed.

(** The second level of [_addItem]: one attempt, whose failure is thrown on. *)
Lemma addItem_attempted {S} `{Storage S} (self : loc -> bool -> M S unit)
    (w : World S) (item : loc) (it : CacheItem) :
  heap w !! item = Some it ->
  _addItem_body self item true w = call (storage_set (key it) item) w.
Proof.
  intros Hit. unfold _addItem_body, try_catch, bind.
  rewrite (read_item_Some _ _ _ Hit).
  destruct (call (storage_set (key it) item) w) as [w' [e | []]]; reflexivity.
Qed.

(** C6: when the backend's [set] fails during the insertion and the purge
    pass that follows completes, the insertion is attempted exactly once
    more, on the purged state: the outcome of [_addItem] is the outcome of
    that second attempt (its failure, if it fails, reaches the caller), and
    the backend has seen exactly two calls of [set]. *)
Theorem addItem_retries_once {B} `{Storage B}
    (w w1 w2 : World (Probe B)) (item : loc) (it : CacheItem) (e : exn) :
  heap w !! item = Some it ->
  call (storage_set (key it) item) w = (w1, inl e) ->
  _purge w1 = (w2, inr tt) ->
  _addItem item false w = call (storage_set (key it) item) w2 /\
  set_count (fst (_addItem item false w)) = (set_count w + 2)%nat /\
  (forall e', snd (call (storage_set (key it) item) w2) = inl e' ->
              snd (_addItem item false w) = inl e').
Proof.
  intros Hit Hset Hpurge.
  assert (Hheap : heap w2 !! item = Some it).
  { pose proof (preserves_purge (@heap (Probe B)) Quiet_heap w1) as Hp.
    rewrite Hpurge in Hp. simpl in Hp. rewrite Hp.
    pose proof (call_heap (storage_set (key it) item) w) as Hc.
    rewrite Hset in Hc. simpl in Hc. rewrite Hc. exact Hit. }
  assert (Heq : _addItem item false w = call (storage_set (key it) item) w2).
  { unfold _addItem. unfold _addItem_body at 1. unfold try_catch at 1.
    unfold bind at 1. rewrite (read_item_Some _ _ _ Hit). rewrite Hset.
    unfold bind. rewrite Hpurge. apply addItem_attempted. exact Hheap. }
  split; [exact Heq | split].
  - rewrite Heq, call_set_counts.
    pose proof (preserves_purge (@set_count B) Quiet_set_count w1) as Hp.
    rewrite Hpurge in Hp. simpl in Hp. rewrite Hp.
    pose proof (call_set_counts (key it) item w) as Hc.
    rewrite Hset in Hc. simpl in Hc. rewrite Hc. lia.
  - intros e' He'. rewrite Heq. exact He'.
Qed.

Lemma addItem_retries_once_witness :
  heap full_world !! 0%nat = Some b_item /\
  _addItem 0%nat false full_world
    = call (storage_set (VStr "b") 0%nat)
        (fst (_purge (fst (call (storage_set (VStr "b") 0%nat) full_world)))) /\
  set_count (fst (_addItem 0%nat false full_world)) = 2%nat /\
  snd (_addItem 0%nat false full_world) = inl (BackendError "QuotaExceededError").
Proof.
  pose proof (addItem_retries_once full_world
    (fst (call (storage_set (VStr "b") 0%nat) full_world))
    (fst (_purge (fst (call (storage_set (VStr "b") 0%nat) full_world))))
    0%nat b_item (BackendError "QuotaExceededError")
    eq_refl eq_refl eq_refl) as (Heq & Hcount & Hthrow).
  split; [reflexivity | split; [exact Heq | split; [exact Hcount |]]].
  apply Hthrow. reflexivity.
Defined.

(** The other outcome: the purge makes room and the second attempt
    succeeds.  "b" is stored after two further calls of [set], and the
    purge has evicted "a". *)
Example retry_after_purge_succeeds :
  let r := setItem (VStr "b") (VNum 2) None crowded_world in
  set_count crowded_world = 1%nat /\
  snd r = inr tt /\
  set_count (fst r) = 3%nat /\
  Basic_keys (held (probed (_storage (fst r)))) = [VStr "b"] /\
  timers (fst r) = [CallbackTask 7%nat (VStr "a") (VNum 1)].
Proof. repeat split. Qed.

(** ** Eviction order *)

Lemma sort_insert_Permutation {A} (cmp : A -> A -> option Z) (x : A) (l : list A) :
  Permutation (sort_insert cmp x l) (x :: l).
Proof.
  induction l as [| y rest IH]; simpl.
  - reflexivity.
  - destruct (goes_after cmp x y).
    + rewrite IH. apply perm_swap.
    + reflexivity.
Qed.

Lemma Array_sort_Permutation {A} (cmp : A -> A -> option Z) (l : list A) :
  Permutation (Array_sort cmp l) l.
Proof.
  induction l as [| x rest IH]; simpl.
  - reflexivity.
  - rewrite sort_insert_Permutation. apply perm_skip, IH.
Qed.

Lemma rank_le_trans (a b c : CacheItem) :
  rank_le a b -> rank_le b c -> rank_le a c.
Proof.
  unfold rank_le.
  destruct (priority (options a)), (priority (options b)),
    (priority (options c)); intros; try contradiction; lia.
Qed.

(** On items that carry a priority the comparison function is the strict
    part of [rank_le], read downwards. *)
Lemma goes_after_rank (a b : CacheItem) :
  has_priority a -> has_priority b ->
  if goes_after purge_compare a b then rank_le a b else rank_le b a.
Proof.
  intros [pa Ha] [pb Hb]. unfold goes_after, purge_compare, rank_le.
  rewrite Ha, Hb. simpl.
  destruct (Z.eqb_spec pa pb) as [-> | Hne]; simpl.
  - destruct (Z.ltb_spec 0 (lastAccessed b - lastAccessed a)); lia.
  - destruct (Z.ltb_spec 0 (pb - pa)); lia.
Qed.

Lemma sort_insert_sorted (x : CacheItem) (l : list CacheItem) :
  has_priority x -> Forall has_priority l ->
  StronglySorted (flip rank_le) l ->
  StronglySorted (flip rank_le) (sort_insert purge_compare x l).
Proof.
  intros Hx Hl Hs. induction Hs as [| y rest Hrest IH Hy]; simpl.
  - repeat constructor.
  - inversion Hl as [| ? ? Hpy Hprest]; subst.
    pose proof (goes_after_rank x y Hx Hpy) as Hxy.
    destruct (goes_after purge_compare x y).
    + constructor; [apply IH, Hprest |].
      rewrite sort_insert_Permutation. constructor; assumption.
    + constructor; [constructor; assumption |].
      constructor; [exact Hxy |].
      eapply Forall_impl; [exact Hy |].
      intros z Hz. unfold flip in *. eapply rank_le_trans; eassumption.
Qed.

Lemma Array_sort_sorted (l : list CacheItem) :
  Forall has_priority l ->
  StronglySorted (flip rank_le) (Array_sort purge_compare l).
Proof.
  induction 1 as [| x rest Hx Hrest IH]; simpl.
  - constructor.
  - apply sort_insert_sorted; [exact Hx | | exact IH].
    rewrite Array_sort_Permutation. exact Hrest.
Qed.

Lemma StronglySorted_rev {A} (R : A -> A -> Prop) (l : list A) :
  StronglySorted (flip R) l -> StronglySorted R (rev l).
Proof.
  induction 1 as [| x rest Hrest IH Hx]; simpl.
  - constructor.
  - apply StronglySorted_app_2.
    + intros a b Ha Hb. apply list_elem_of_In in Ha, Hb.
      destruct Hb as [<- | []]. apply in_rev in Ha.
      rewrite Forall_forall in Hx. apply Hx, list_elem_of_In, Ha.
    + exact IH.
    + repeat constructor.
Qed.

(** [tmp.length > purgeSize] only looks at the integer part of [purgeSize]. *)
Lemma Qgtb_floor (n : Z) (p : Q) : Qgtb (inject_Z n) p = (Qfloor p <? n).
Proof.
  unfold Qgtb. destruct (Z.ltb_spec (Qfloor p) n) as [Hlt | Hge].
  - apply negb_true_iff. destruct (Qle_bool (inject_Z n) p) eqn:E; [| reflexivity].
    apply Qle_bool_iff, Qfloor_resp_le in E. rewrite Qfloor_Z in E. lia.
  - apply negb_false_iff, Qle_bool_iff.
    apply Qle_trans with (inject_Z (Qfloor p)); [| apply Qfloor_le].
    rewrite <- Zle_Qle. exact Hge.
Qed.

(** The [while] loop removes a prefix of the stack, one item after the
    other, and stops when the integer part of [purgeSize] is reached. *)
Lemma purge_evict_prefix {S} `{Storage S} (stack : list CacheItem) (purgeSize : Q) :
  0 <= Qfloor purgeSize ->
  exists victims rest,
    stack = victims ++ rest /\
    Z.of_nat (length rest) = Z.min (Z.of_nat (length stack)) (Qfloor purgeSize) /\
    forall w : World S,
      purge_evict stack purgeSize w = clear_loop (map key victims) w.
Proof.
  intros Hp. induction stack as [| it st IH].
  - exists [], []. repeat split; [simpl; lia |].
    intros w. cbn [purge_evict]. rewrite Qgtb_floor.
    destruct (Z.ltb_spec (Qfloor purgeSize) (Z.of_nat (length (@nil CacheItem))));
      [simpl in *; lia | reflexivity].
  - destruct (Z.ltb_spec (Qfloor purgeSize) (Z.of_nat (length (it :: st)))) as [Hlt | Hge].
    + destruct IH as (victims & rest & -> & Hlen & Hrun).
      exists (it :: victims), rest. repeat split.
      * rewrite Hlen. simpl length in *. lia.
      * intros w. cbn [purge_evict]. rewrite Qgtb_floor.
        destruct (Z.ltb_spec (Qfloor purgeSize)
                    (Z.of_nat (length (it :: victims ++ rest)))); [| lia].
        cbn [map clear_loop]. unfold bind.
        destruct (removeItem (key it) w) as [w' [e | v]]; [reflexivity | apply Hrun].
    + exists [], (it :: st). repeat split; [lia |].
      intros w. cbn [purge_evict]. rewrite Qgtb_floor.
      destruct (Z.ltb_spec (Qfloor purgeSize) (Z.of_nat (length (it :: st))));
        [lia | reflexivity].
Qed.

(** X1. Among live candidates that all carry a priority, the purge keeps
    [purgeSize] of them (rounded down) and evicts the others one after the
    other in rising rank, lower priority first and, at equal priority,
    less recent access first; no evicted item outranks a kept one. *)
Theorem purge_evicts_lowest_rank {S} `{Storage S}
    (tmp : list CacheItem) (purgeSize : Q) :
  Forall has_priority tmp ->
  (0 <= purgeSize)%Q ->
  exists victims kept,
    Permutation tmp (victims ++ kept) /\
    Z.of_nat (length kept) = Z.min (Z.of_nat (length tmp)) (Qfloor purgeSize) /\
    (forall w : World S,
       purge_excess tmp purgeSize w = clear_loop (map key victims) w) /\
    StronglySorted rank_le victims /\
    (forall v k, In v victims -> In k kept -> rank_le v k).
Proof.
  intros Hprio Hp.
  assert (Hfloor : 0 <= Qfloor purgeSize).
  { apply Qfloor_resp_le in Hp. exact Hp. }
  unfold purge_excess. rewrite Qgtb_floor.
  destruct (Z.ltb_spec (Qfloor purgeSize) (Z.of_nat (length tmp))) as [Hlt | Hge].
  - destruct (purge_evict_prefix (rev (Array_sort purge_compare tmp)) purgeSize Hfloor)
      as (victims & rest & Hsplit & Hlen & Hrun).
    pose proof (StronglySorted_rev rank_le _ (Array_sort_sorted tmp Hprio)) as Hs.
    rewrite Hsplit in Hs. apply StronglySorted_app in Hs as (Hcross & Hv & _).
    exists victims, rest. split; [| split; [| split; [| split]]].
    + rewrite <- Hsplit, <- Permutation_rev, Array_sort_Permutation. reflexivity.
    + rewrite Hlen, length_rev, (Permutation_length (Array_sort_Permutation _ tmp)).
      reflexivity.
    + exact Hrun.
    + exact Hv.
    + intros v k Hv' Hk. apply Hcross; apply list_elem_of_In; assumption.
  - exists [], tmp. split; [reflexivity |]. split; [lia |].
    split; [reflexivity |]. split; [constructor |]. intros v k [].
Qed.

(** ** Low against High *)

Lemma purge_evicts_lowest_rank_witness :
  Forall has_priority [high_item; low_item] /\
  exists victims kept,
    Permutation [high_item; low_item] (victims ++ kept) /\
    Z.of_nat (length kept) = 1 /\
    (forall w : World Sized,
       purge_excess [high_item; low_item] (3 # 2) w
       = clear_loop (map key victims) w) /\
    StronglySorted rank_le victims /\
    (forall v k, In v victims -> In k kept -> rank_le v k).
Proof.
  assert (Hp : Forall has_priority [high_item; low_item]).
  { repeat constructor; eexists; reflexivity. }
  split; [exact Hp |].
  apply (purge_evicts_lowest_rank (S := Sized) [high_item; low_item] (3 # 2) Hp).
  discriminate.
Defined.

(** Of two live items of different priorities, a purge that keeps one
    evicts the one of lower priority, in whichever order the scan found
    them. *)
Lemma purge_of_two_evicts_low {S} `{Storage S} (lo hi : CacheItem)
    (plo phi : Z) (purgeSize : Q) (w : World S) :
  priority (options lo) = Some plo ->
  priority (options hi) = Some phi ->
  plo < phi ->
  Qfloor purgeSize = 1 ->
  purge_excess [lo; hi] purgeSize w = (removeItem (key lo) ;; ret tt) w /\
  purge_excess [hi; lo] purgeSize w = (removeItem (key lo) ;; ret tt) w.
Proof.
  intros Hlo Hhi Hlt Hfloor.
  assert (Hafter : goes_after purge_compare lo hi = true).
  { unfold goes_after, purge_compare. rewrite Hlo, Hhi. simpl.
    destruct (Z.eqb_spec plo phi); [lia |]. simpl. apply Z.ltb_lt. lia. }
  assert (Hbefore : goes_after purge_compare hi lo = false).
  { unfold goes_after, purge_compare. rewrite Hlo, Hhi. simpl.
    destruct (Z.eqb_spec phi plo); [lia |]. simpl. apply Z.ltb_ge. lia. }
  unfold purge_excess. rewrite !Qgtb_floor, Hfloor.
  cbn [length Array_sort foldr sort_insert]. rewrite Hafter, Hbefore.
  cbn [rev app purge_evict length]. rewrite !Qgtb_floor, Hfloor.
  split; reflexivity.
Qed.

(** The same on a cache: an unbounded cache holding a High and a Low item
    is purged (as after an insertion failure) down to the High one. *)
Example purge_keeps_high_priority :
  Basic_keys (base (_storage two_ranks)) = [VStr "hi"; VStr "lo"] /\
  snd (_purge two_ranks) = inr tt /\
  Basic_keys (base (_storage (fst (_purge two_ranks)))) = [VStr "hi"].
Proof. repeat split. Qed.


(** ** Steps of a successful call *)

Lemma lookup_snoc {A} (l : list A) (x : A) : (l ++ [x]) !! length l = Some x.
Proof. apply list_lookup_middle. reflexivity. Qed.

Lemma callbacks_app (ts us : list Task) :
  callbacks (ts ++ us) = callbacks ts ++ callbacks us.
Proof. apply List.filter_app. Qed.

Lemma callbacks_removal (it : CacheItem) :
  callbacks (removal_callback it) = removal_callback it.
Proof. unfold removal_callback. destruct (callback (options it)); reflexivity. Qed.

Section Steps.
Context {S : Type} `{Storage S}.

(** [removeItem] leaves the heap and the clock alone and schedules the
    callback of the item the backend handed back. *)
Lemma removeItem_inr (w w' : World S) (k r : jsval) :
  removeItem k w = (w', inr r) ->
  heap w' = heap w /\ reads w' = reads w /\ clock w' = clock w /\
  timers w' = timers w ++
    match snd (storage_remove k (_storage w)) with
    | inr (Some l) =>
        match heap w !! l with
        | Some it => removal_callback it
        | None => []
        end
    | _ => []
    end.
Proof.
  unfold removeItem, bind, call, read_item, removal_callback.
  destruct (storage_remove k (_storage w)) as [s' [e | [l |]]]; simpl;
    [discriminate | |].
  - destruct (heap w !! l) as [it |]; [| discriminate].
    destruct (callback (options it)); simpl; intros [= <- _]; simpl;
      rewrite ?app_nil_r; auto.
  - intros [= <- _]. simpl. rewrite app_nil_r. auto.
Qed.

Lemma CacheItem_new_inr (w w' : World S) (k v : jsval)
    (opts : option OptionsArg) (item : loc) :
  CacheItem_new k v opts w = (w', inr item) ->
  truthy k = true /\
  heap w' !! item = Some (fresh_item k v opts (clock w (reads w))) /\
  _storage w' = _storage w /\ timers w' = timers w /\
  reads w' = Datatypes.S (reads w) /\ clock w' = clock w.
Proof.
  unfold CacheItem_new. destruct (truthy k); [| discriminate].
  cbn [negb]. destruct (getTime_fails opts); [discriminate |].
  unfold bind, Date_now, alloc. simpl.
  intros [= <- <-]. simpl. repeat split. apply lookup_snoc.
Qed.

(** A successful insertion ends with a successful [set] of the item; if
    the backend never refuses, nothing else happens. *)
Lemma addItem_inr (w w' : World S) (item : loc) (it : CacheItem) :
  heap w !! item = Some it ->
  _addItem item false w = (w', inr tt) ->
  heap w' = heap w /\ clock w' = clock w /\
  (exists s0, storage_set (key it) item s0 = (_storage w', inr tt)) /\
  (never_full S -> timers w' = timers w /\ reads w' = reads w).
Proof.
  intros Hit. unfold _addItem. unfold _addItem_body at 1. unfold try_catch.
  erewrite bind_ok by (apply read_item_Some; exact Hit).
  unfold call at 1.
  destruct (storage_set (key it) item (_storage w)) as [s1 [e | []]] eqn:Hset.
  - unfold bind.
    destruct (_purge (with_storage s1 w)) as [w2 [e2 | []]] eqn:Hpurge;
      [discriminate |].
    assert (Hheap2 : heap w2 = heap w).
    { pose proof (preserves_purge (@heap S) Quiet_heap (with_storage s1 w)) as Hp.
      rewrite Hpurge in Hp. exact Hp. }
    rewrite addItem_attempted with (it := it) by (rewrite Hheap2; exact Hit).
    unfold call.
    destruct (storage_set (key it) item (_storage w2)) as [s3 [e3 | []]] eqn:Hset2;
      [discriminate |].
    intros [= <-]. simpl. split; [| split; [| split]].
    + exact Hheap2.
    + pose proof (preserves_purge (@clock S) (Inert_Quiet _ Inert_clock)
                    (with_storage s1 w)) as Hp.
      rewrite Hpurge in Hp. exact Hp.
    + exists (_storage w2). exact Hset2.
    + intros Hfull. specialize (Hfull (key it) item (_storage w)).
      rewrite Hset in Hfull. discriminate.
  - intros [= <-]. simpl. split; [| split; [| split]]; auto.
    exists (_storage w). exact Hset.
Qed.

End Steps.

Section LawfulSteps.
Context {S : Type} `{Lawful S}.

(** The capacity check at the end of [setItem] may schedule the purge and
    changes nothing else. *)
Lemma capacity_check_inr (w w' : World S) :
  (maxSize <- get_maxSize ;;
   if 0 <? maxSize then
     n <- size ;;
     if maxSize <? n then setTimeout PurgeTask else ret tt
   else ret tt) w = (w', inr tt) ->
  heap w' = heap w /\ _storage w' = _storage w /\
  reads w' = reads w /\ clock w' = clock w /\
  callbacks (timers w') = callbacks (timers w).
Proof.
  unfold bind, get_maxSize, size, call.
  destruct (0 <? _maxSize w).
  - pose proof (size_reads (_storage w)) as Hsize.
    destruct (storage_size (_storage w)) as [s' [e | n]]; [discriminate |].
    simpl in Hsize. subst s'.
    destruct (_maxSize w <? n); intros [= <-]; simpl; repeat split.
    rewrite callbacks_app, app_nil_r. reflexivity.
  - intros [= <-]. repeat split.
Qed.

(** What a [setItem] that returns has done. *)
Lemma setItem_inr (w w1 : World S) (k v : jsval) (opts : option OptionsArg) :
  setItem k v opts w = (w1, inr tt) ->
  clock w1 = clock w /\
  (exists l,
     snd (storage_get k (_storage w1)) = inr (Some l) /\
     heap w1 !! l = Some (fresh_item k v opts (clock w (reads w)))) /\
  (never_full S ->
   reads w1 = Datatypes.S (reads w) /\
   callbacks (timers w1) = callbacks (timers w) ++
     match item_under k w with
     | Some it => removal_callback it
     | None => []
     end).
Proof.
  unfold setItem. intros Hrun.
  apply bind_inr in Hrun as (wa & old & Hget & Hrun).
  apply bind_inr in Hrun as (wb & [] & Hold & Hrun).
  apply bind_inr in Hrun as (wc & item & Hnew & Hrun).
  apply bind_inr in Hrun as (wd & [] & Hadd & Hcheck).
  (* the lookup of the old entry *)
  unfold call in Hget. pose proof (get_reads k (_storage w)) as Hreads.
  assert (Hold_is : snd (storage_get k (_storage w)) = inr old).
  { destruct (storage_get k (_storage w)) as [s' r]. injection Hget as _ ->.
    reflexivity. }
  assert (Hwa : heap wa = heap w /\ _storage wa = _storage w /\
                reads wa = reads w /\ clock wa = clock w /\ timers wa = timers w).
  { destruct (storage_get k (_storage w)) as [s' r]. simpl in Hreads. subst s'.
    injection Hget as <- _. repeat split. }
  destruct Hwa as (Hha & Hsa & Hra & Hca & Hta).
  (* its removal *)
  assert (Hwb : heap wb = heap w /\ reads wb = reads w /\ clock wb = clock w /\
                timers wb = timers w ++
                  match item_under k w with
                  | Some it => removal_callback it
                  | None => []
                  end).
  { unfold item_under. rewrite Hold_is. destruct old as [l |].
    - apply bind_inr in Hold as (wr & r & Hrem & Hret). injection Hret as <-.
      apply removeItem_inr in Hrem as (Hh & Hr & Hc & Ht).
      rewrite Hsa, remove_returns, Hold_is, Hha in Ht.
      repeat split; congruence.
    - injection Hold as <-. rewrite app_nil_r. repeat split; assumption. }
  destruct Hwb as (Hhb & Hrb & Hcb & Htb).
  (* the new item and its insertion *)
  apply CacheItem_new_inr in Hnew as (Hk & Hitem & _ & Htc & Hrc & Hcc).
  rewrite Hcb, Hrb in Hitem.
  destruct (addItem_inr wc wd item _ Hitem Hadd)
    as (Hhd & Hcd & (s0 & Hset) & Hquiet).
  apply capacity_check_inr in Hcheck as (Hh1 & Hs1 & Hr1 & Hc1 & Ht1).
  split; [congruence | split].
  - exists item. split.
    + rewrite Hs1. apply (get_after_set _ _ _ _ Hset).
    + rewrite Hh1, Hhd. exact Hitem.
  - intros Hfull. destruct (Hquiet Hfull) as (Htd & Hrd). split.
    + congruence.
    + rewrite Ht1, Htd, Htc, Htb, callbacks_app.
      destruct (item_under k w) as [it |]; [rewrite callbacks_removal |];
        reflexivity.
Qed.

(** [getItem] on a key whose item is live. *)
Lemma getItem_live (w : World S) (k : jsval) (l : loc) (it : CacheItem) :
  snd (storage_get k (_storage w)) = inr (Some l) ->
  heap w !! l = Some it ->
  _isExpired_at (clock w (reads w)) it = false ->
  getItem k w =
    (with_stats
       (if truthy (value it)
        then {| hits := hits (_stats w) + 1; misses := misses (_stats w) |}
        else {| hits := hits (_stats w); misses := misses (_stats w) + 1 |})
       (with_heap (<[l := update_lastAccessed (clock w (Datatypes.S (reads w))) it]>
                     (heap w))
          (with_reads (Datatypes.S (Datatypes.S (reads w)))
             (with_storage (_storage w) w))),
     inr (value it)).
Proof.
  intros Hget Hheap Hlive.
  unfold getItem, bind, call. pose proof (get_reads k (_storage w)) as Hreads.
  destruct (storage_get k (_storage w)) as [s' r]. simpl in Hget, Hreads.
  subst s' r.
  unfold _isExpired, bind, Date_now, read_item. simpl. rewrite Hheap.
  unfold ret. rewrite Hlive. simpl.
  unfold write_lastAccessed. simpl. rewrite Hheap. simpl.
  rewrite list_lookup_insert_eq by (eapply lookup_lt_Some; exact Hheap).
  simpl. destruct (truthy (value it)); reflexivity.
Qed.

End LawfulSteps.

Lemma no_expiration_live (k v : jsval) (opts : option OptionsArg) (t now : Z) :
  no_expiration opts -> _isExpired_at now (fresh_item k v opts t) = false.
Proof.
  intros [Ha Hs]. unfold _isExpired_at, fresh_item. cbn [options lastAccessed].
  rewrite Ha, Hs. reflexivity.
Qed.

Lemma prop_assign {A} (name : string) (v : A) (obj : list (string * A)) :
  prop name (assign name v obj) = Some v.
Proof.
  induction obj as [| [n x] rest IH]; simpl.
  - rewrite String.eqb_refl. reflexivity.
  - destruct (String.eqb n name) eqn:E; simpl; rewrite E; [reflexivity | exact IH].
Qed.

#[export] Instance Basic_Lawful : Lawful Basic.
Proof.
  split; try reflexivity.
  - intros k l s s' [= <-]. simpl. unfold Basic_get, Basic_set. simpl.
    rewrite prop_assign. reflexivity.
  - intros k s. simpl. unfold Basic_remove.
    destruct (Basic_get k s); reflexivity.
Qed.

#[export] Instance Sized_Lawful : Lawful Sized.
Proof.
  split; try reflexivity.
  - intros k l s s' [= <-]. simpl. unfold Basic_get, Basic_set. simpl.
    rewrite prop_assign. reflexivity.
  - intros k s. simpl. unfold Basic_remove.
    destruct (Basic_get k (base s)); reflexivity.
Qed.

Lemma Basic_never_full : never_full Basic.
Proof. intros k l s. reflexivity. Qed.

Lemma Sized_never_full : never_full Sized.
Proof. intros k l s. reflexivity. Qed.

(** ** Reading back *)

(** C2, as the code has it: over a backend that keeps references, after a
    [setItem(k, v, opts)] that returns, with a truthy value and no
    expiration options, [getItem(k)] returns [v], adds one to [hits] and
    nothing to [misses], and sets the item's [lastAccessed] to the time
    read at that moment. *)
Theorem getItem_after_setItem {S} `{Lawful S} (w w1 : World S) (k v : jsval)
    (opts : option OptionsArg) :
  setItem k v opts w = (w1, inr tt) ->
  truthy v = true ->
  no_expiration opts ->
  let w2 := fst (getItem k w1) in
  snd (getItem k w1) = inr v /\
  hits (_stats w2) = hits (_stats w1) + 1 /\
  misses (_stats w2) = misses (_stats w1) /\
  option_map lastAccessed (item_under k w2)
    = Some (clock w1 (Datatypes.S (reads w1))).
Proof.
  intros Hset Hv Hopts. cbv zeta.
  apply setItem_inr in Hset as (_ & (l & Hget & Hheap) & _).
  rewrite (getItem_live w1 k l _ Hget Hheap (no_expiration_live _ _ _ _ _ Hopts)).
  cbn [value fresh_item]. rewrite Hv. unfold item_under. simpl. rewrite Hget.
  rewrite list_lookup_insert_eq by (eapply lookup_lt_Some; exact Hheap).
  repeat split.
Qed.

Lemma getItem_after_setItem_witness :
  let w := Cache None Basic_new ticking in
  let w1 := fst (setItem (VStr "k") (VNum 7) (Some no_options) w) in
  let w2 := fst (getItem (VStr "k") w1) in
  snd (getItem (VStr "k") w1) = inr (VNum 7) /\
  hits (_stats w2) = hits (_stats w1) + 1 /\
  misses (_stats w2) = misses (_stats w1) /\
  option_map lastAccessed (item_under (VStr "k") w2)
    = Some (clock w1 (Datatypes.S (reads w1))).
Proof.
  intros w w1.
  apply (getItem_after_setItem w w1 (VStr "k") (VNum 7) (Some no_options)).
  - vm_compute. reflexivity.
  - reflexivity.
  - split; reflexivity.
Defined.

(** C2, as stated, fails for a falsy value: after [setItem("k", 0)],
    [getItem("k")] returns 0 and counts a miss, not a hit. *)
Lemma getItem_falsy_counterexample :
  let w := Cache None Basic_new ticking in
  let w1 := fst (setItem (VStr "k") (VNum 0) (Some no_options) w) in
  let w2 := fst (getItem (VStr "k") w1) in
  snd (setItem (VStr "k") (VNum 0) (Some no_options) w) = inr tt /\
  snd (getItem (VStr "k") w1) = inr (VNum 0) /\
  hits (_stats w2) = hits (_stats w1) /\
  misses (_stats w2) = misses (_stats w1) + 1.
Proof. repeat split. Qed.

(** ** Replacing an entry *)

(** C9, as the code has it: over a backend that keeps references and never
    refuses a [set], when [setItem(k, v1, opts1)] and then
    [setItem(k, v2, opts2)] return, the second call has scheduled exactly
    the removal callback of the first item (with [k] and [v1], if [opts1]
    carries one) and no other; and [getItem(k)] then returns [v2], provided
    the new item is live when read. *)
Theorem setItem_twice {S} `{Lawful S} (w w1 w2 : World S) (k v1 v2 : jsval)
    (opts1 opts2 : option OptionsArg) :
  never_full S ->
  setItem k v1 opts1 w = (w1, inr tt) ->
  setItem k v2 opts2 w1 = (w2, inr tt) ->
  _isExpired_at (clock w2 (reads w2))
    (fresh_item k v2 opts2 (clock w1 (reads w1))) = false ->
  callbacks (timers w2) = callbacks (timers w1) ++ callback_of k v1 opts1 /\
  snd (getItem k w2) = inr v2.
Proof.
  intros Hfull Hset1 Hset2 Hlive.
  apply setItem_inr in Hset1 as (_ & (l1 & Hget1 & Hheap1) & _).
  apply setItem_inr in Hset2 as (_ & (l2 & Hget2 & Hheap2) & Htimers).
  destruct (Htimers Hfull) as (_ & Hcallbacks). split.
  - rewrite Hcallbacks. unfold item_under. rewrite Hget1, Hheap1. reflexivity.
  - rewrite (getItem_live w2 k l2 _ Hget2 Hheap2 Hlive). reflexivity.
Qed.

Lemma setItem_twice_witness :
  let w := Cache None Basic_new ticking in
  let w1 := fst (setItem (VStr "k") (VNum 1) (Some (with_callback 7%nat)) w) in
  let w2 := fst (setItem (VStr "k") (VNum 2) (Some no_options) w1) in
  callbacks (timers w2)
    = callbacks (timers w1) ++ [CallbackTask 7%nat (VStr "k") (VNum 1)] /\
  snd (getItem (VStr "k") w2) = inr (VNum 2).
Proof.
  intros w w1 w2.
  apply (setItem_twice w w1 w2 (VStr "k") (VNum 1) (VNum 2)
           (Some (with_callback 7%nat)) (Some no_options) Basic_never_full).
  - vm_compute. reflexivity.
  - vm_compute. reflexivity.
  - vm_compute. reflexivity.
Defined.

(** C9, as stated, fails when the second bag carries an absolute
    expiration that has passed: both calls return and the second schedules
    the first item's callback, but the read finds the new item expired,
    returns [null] instead of 2 and schedules a second callback. *)
Lemma setItem_twice_counterexample :
  let w := Cache None Basic_new ticking in
  let w1 := fst (setItem (VStr "k") (VNum 1) (Some (with_callback 7%nat)) w) in
  let w2 := fst (setItem (VStr "k") (VNum 2) (Some past_absolute) w1) in
  let w3 := fst (getItem (VStr "k") w2) in
  snd (setItem (VStr "k") (VNum 1) (Some (with_callback 7%nat)) w) = inr tt /\
  snd (setItem (VStr "k") (VNum 2) (Some past_absolute) w1) = inr tt /\
  callbacks (timers w2) = [CallbackTask 7%nat (VStr "k") (VNum 1)] /\
  snd (getItem (VStr "k") w2) = inr VNull /\
  callbacks (timers w3) = [CallbackTask 7%nat (VStr "k") (VNum 1);
                           CallbackTask 8%nat (VStr "k") (VNum 2)].
Proof. repeat split. Qed.

(** ** Candidates without a priority *)

(** Against a candidate stored without a priority the comparison function
    is NaN either way, so the sort leaves such a candidate, and whatever
    stands around it, in scan order. *)
Lemma purge_compare_undefined (a b : CacheItem) :
  priority (options a) = None -> is_Some (priority (options b)) ->
  purge_compare a b = None /\ purge_compare b a = None.
Proof.
  intros Ha [pb Hb]. unfold purge_compare. rewrite Ha, Hb. split; reflexivity.
Qed.

(** C8, at the failing input: the cache holds "l" (Low), "m" (stored
    without a priority, hence [undefined]) and "h" (High); a further insert
    fails in the backend and the purge that follows evicts one item.  It
    evicts "h", the High one, and keeps "l", the Low one. *)
Theorem mixed_priorities_evict_high :
  let r := setItem (VStr "x") (VNum 4) (Some (with_priority 2)) mixed_world in
  Basic_keys (held (_storage mixed_world)) = [VStr "l"; VStr "m"; VStr "h"] /\
  priority_under (VStr "l") mixed_world = Some (Some 1) /\
  priority_under (VStr "m") mixed_world = Some None /\
  priority_under (VStr "h") mixed_world = Some (Some 3) /\
  snd r = inr tt /\
  Basic_keys (held (_storage (fst r))) = [VStr "l"; VStr "m"; VStr "x"].
Proof. repeat split. Qed.

(** * Further properties of the engine *)

(** ** Keys the backend does not hold *)

(** X2. A read or a removal of a key the backend does not hold returns [null]
    and throws nothing; the read counts a miss without looking at the
    clock, and neither touches the heap, the backend or the timers. *)
Theorem absent_key_reads_null {S} `{Lawful S} (w : World S) (k : jsval) :
  snd (storage_get k (_storage w)) = inr None ->
  getItem k w =
    (with_stats {| hits := hits (_stats w); misses := misses (_stats w) + 1 |}
       (with_storage (_storage w) w), inr VNull) /\
  snd (removeItem k w) = inr VNull /\
  timers (fst (removeItem k w)) = timers w /\
  heap (fst (removeItem k w)) = heap w.
Proof.
  intros Hget. split; [| split; [| split]].
  - unfold getItem, bind, call. pose proof (get_reads k (_storage w)) as Hr.
    destruct (storage_get k (_storage w)) as [s' r]. simpl in Hget, Hr.
    subst s' r. reflexivity.
  - unfold removeItem, bind, call. pose proof (remove_returns k (_storage w)) as Hr.
    rewrite Hget in Hr.
    destruct (storage_remove k (_storage w)) as [s' r]. simpl in Hr. subst r.
    reflexivity.
  - unfold removeItem, bind, call. pose proof (remove_returns k (_storage w)) as Hr.
    rewrite Hget in Hr.
    destruct (storage_remove k (_storage w)) as [s' r]. simpl in Hr. subst r.
    reflexivity.
  - unfold removeItem, bind, call. pose proof (remove_returns k (_storage w)) as Hr.
    rewrite Hget in Hr.
    destruct (storage_remove k (_storage w)) as [s' r]. simpl in Hr. subst r.
    reflexivity.
Qed.

Lemma absent_key_reads_null_witness :
  let w := Cache None Basic_new ticking in
  getItem (VStr "k") w =
    (with_stats {| hits := hits (_stats w); misses := misses (_stats w) + 1 |}
       (with_storage (_storage w) w), inr VNull) /\
  snd (removeItem (VStr "k") w) = inr VNull /\
  timers (fst (removeItem (VStr "k") w)) = timers w /\
  heap (fst (removeItem (VStr "k") w)) = heap w.
Proof.
  intros w. apply (absent_key_reads_null w (VStr "k")). reflexivity.
Defined.

(** ** Expired items *)

(** X3. Reading an expired item removes it: [getItem] hands the key to
    [removeItem] (so the removal callback is scheduled), counts a miss and
    returns [null], although the backend held a value. *)
Theorem getItem_expired {S} `{Lawful S} (w : World S) (k : jsval) (l : loc)
    (it : CacheItem) :
  snd (storage_get k (_storage w)) = inr (Some l) ->
  heap w !! l = Some it ->
  _isExpired_at (clock w (reads w)) it = true ->
  let w' := fst (getItem k w) in
  snd (getItem k w) = inr VNull /\
  hits (_stats w') = hits (_stats w) /\
  misses (_stats w') = misses (_stats w) + 1 /\
  _storage w' = fst (storage_remove k (_storage w)) /\
  timers w' = timers w ++ removal_callback it /\
  heap w' = heap w.
Proof.
  intros Hget Hheap Hexp. cbv zeta.
  unfold getItem, bind, call. pose proof (get_reads k (_storage w)) as Hr.
  pose proof (remove_returns k (_storage w)) as Hrem. rewrite Hget in Hrem.
  destruct (storage_get k (_storage w)) as [s' r]. simpl in Hget, Hr.
  subst s' r.
  unfold _isExpired, bind, Date_now, read_item. simpl. rewrite Hheap.
  unfold ret. rewrite Hexp. simpl.
  unfold removeItem, bind, call, read_item. simpl.
  destruct (storage_remove k (_storage w)) as [s' r]. simpl in Hrem. subst r.
  simpl. rewrite Hheap. unfold removal_callback.
  destruct (callback (options it)); simpl; rewrite ?app_nil_r; repeat split.
Qed.

Lemma getItem_expired_witness :
  let w := fst (setItem (VStr "k") (VNum 7)
                  (Some {| arg_expirationAbsolute := Some (ADate {| getTime := 500 |});
                           arg_expirationSliding := None;
                           arg_priority := None;
                           arg_callback := Some 3%nat |})
                  (Cache None Basic_new ticking)) in
  let w' := fst (getItem (VStr "k") w) in
  snd (getItem (VStr "k") w) = inr VNull /\
  hits (_stats w') = hits (_stats w) /\
  misses (_stats w') = misses (_stats w) + 1 /\
  _storage w' = fst (storage_remove (VStr "k") (_storage w)) /\
  timers w' = timers w ++ [CallbackTask 3%nat (VStr "k") (VNum 7)] /\
  heap w' = heap w.
Proof.
  intros w.
  apply (getItem_expired w (VStr "k") 0%nat
           {| key := VStr "k"; value := VNum 7;
              options := {| expirationAbsolute := Some 500;
                            expirationSliding := None;
                            priority := None; callback := Some 3%nat |};
              lastAccessed := 1000 |}); reflexivity.
Defined.

(** X4. Expiry does not revert with time: an item judged expired at one time
    is judged expired at every later time, as long as nothing writes to
    it. *)
Theorem isExpired_monotone (now now' : Z) (it : CacheItem) :
  _isExpired_at now it = true -> now <= now' -> _isExpired_at now' it = true.
Proof.
  intros Hexp Hle. apply isExpired_fires in Hexp as [Ha | Hs].
  - apply isExpired_absolute. destruct Ha as (t & Ht & Hne & Hlt).
    exists t. repeat split; [assumption | assumption | lia].
  - apply isExpired_sliding. destruct Hs as (d & Hd & Hne & Hlt).
    exists d. repeat split; [assumption | assumption | lia].
Qed.

Lemma isExpired_monotone_witness :
  _isExpired_at 2000 (with_sliding (Some 1) 0 epoch_item) = true /\
  _isExpired_at 3000 (with_sliding (Some 1) 0 epoch_item) = true.
Proof.
  split; [reflexivity |].
  apply (isExpired_monotone 2000 3000); [reflexivity | lia].
Defined.

(** X5. A read restarts the sliding window: once a live item with a sliding
    expiration of [d] seconds (and no absolute one) has been read, the next
    read finds it live whenever it comes within [d] seconds of the time the
    first read wrote, however long ago the item was stored. *)
Theorem read_restarts_sliding_window {S} `{Lawful S} (w : World S) (k : jsval)
    (l : loc) (it : CacheItem) (d : Z) :
  snd (storage_get k (_storage w)) = inr (Some l) ->
  heap w !! l = Some it ->
  expirationAbsolute (options it) = None ->
  expirationSliding (options it) = Some d ->
  _isExpired_at (clock w (reads w)) it = false ->
  let w1 := fst (getItem k w) in
  clock w (2 + reads w)%nat <= clock w (1 + reads w)%nat + d * 1000 ->
  snd (getItem k w1) = inr (value it) /\
  option_map lastAccessed (item_under k (fst (getItem k w1)))
    = Some (clock w (3 + reads w)%nat).
Proof.
  intros Hget Hheap Habs Hsl Hlive. cbv zeta. intros Hwindow.
  rewrite (getItem_live w k l it Hget Hheap Hlive). cbn [fst].
  set (it1 := update_lastAccessed (clock w (Datatypes.S (reads w))) it).
  assert (Hheap1 : <[l := it1]> (heap w) !! l = Some it1).
  { apply list_lookup_insert_eq. eapply lookup_lt_Some. exact Hheap. }
  assert (Hlive1 : _isExpired_at (clock w (Datatypes.S (Datatypes.S (reads w)))) it1
                   = false).
  { unfold _isExpired_at, it1. cbn [options lastAccessed update_lastAccessed].
    rewrite Habs, Hsl. cbn [truthy_num andb negb].
    destruct (negb (d =? 0)); [| reflexivity].
    destruct (Z.ltb_spec (clock w (Datatypes.S (reads w)) + d * 1000)
                (clock w (Datatypes.S (Datatypes.S (reads w))))); [| reflexivity].
    simpl in Hwindow. lia. }
  match goal with
  | |- context [getItem k ?w1] =>
      rewrite (getItem_live w1 k l it1 Hget Hheap1 Hlive1)
  end.
  split; [reflexivity |].
  unfold item_under. cbn [fst _storage with_stats with_heap with_reads with_storage heap].
  rewrite Hget. rewrite list_lookup_insert_eq; [reflexivity |].
  rewrite length_insert. eapply lookup_lt_Some. exact Hheap.
Qed.

Lemma read_restarts_sliding_window_witness :
  let w := fst (setItem (VStr "k") (VNum 7)
                  (Some {| arg_expirationAbsolute := None;
                           arg_expirationSliding := Some 1;
                           arg_priority := None;
                           arg_callback := None |})
                  (Cache None Basic_new striding)) in
  let w1 := fst (getItem (VStr "k") w) in
  _isExpired_at (clock w (2 + reads w)%nat) (fresh_item (VStr "k") (VNum 7)
     (Some {| arg_expirationAbsolute := None; arg_expirationSliding := Some 1;
              arg_priority := None; arg_callback := None |}) 1000) = true /\
  snd (getItem (VStr "k") w1) = inr (VNum 7) /\
  option_map lastAccessed (item_under (VStr "k") (fst (getItem (VStr "k") w1)))
    = Some (clock w (3 + reads w)%nat).
Proof.
  intros w w1. split; [reflexivity |].
  apply (read_restarts_sliding_window w (VStr "k") 0%nat
           (fresh_item (VStr "k") (VNum 7)
              (Some {| arg_expirationAbsolute := None; arg_expirationSliding := Some 1;
                       arg_priority := None; arg_callback := None |}) 1000) 1);
    try reflexivity.
  vm_compute. discriminate.
Defined.

(** ** What the operations leave untouched *)

Section UntouchedFrames.
Context {S : Type} `{Storage S} {X : Type} (f : World S -> X).
Hypothesis U : Untouched f.

Lemma untouched_call {A} (method : S -> S * (exn + A)) : preserves f (call method).
Proof using U.
  intros w. unfold call. destruct (method (_storage w)) as [s' r]. simpl.
  apply (un_storage f U).
Qed.

Lemma untouched_Date_now : preserves f Date_now.
Proof using U. intros w. apply (un_reads f U). Qed.

Lemma untouched_alloc (it : CacheItem) : preserves f (alloc it).
Proof using U. intros w. apply (un_heap f U). Qed.

Lemma untouched_write_lastAccessed (l : loc) (t : Z) :
  preserves f (write_lastAccessed l t).
Proof using U.
  intros w. unfold write_lastAccessed. destruct (heap w !! l); [| reflexivity].
  apply (un_heap f U).
Qed.

Lemma untouched_hit : preserves f hit.
Proof using U. intros w. apply (un_stats f U). Qed.

Lemma untouched_miss : preserves f miss.
Proof using U. intros w. apply (un_stats f U). Qed.

Lemma untouched_callback (g : fn) (k v : jsval) :
  preserves f (setTimeout (CallbackTask g k v)).
Proof using U. intros w. apply (un_callback f U). Qed.

Lemma untouched_isExpired (item : option loc) : preserves f (_isExpired item).
Proof using U. unfold _isExpired. frame. apply untouched_Date_now. Qed.

Lemma untouched_removeItem (k : jsval) : preserves f (removeItem k).
Proof using U.
  unfold removeItem. frame.
  - apply untouched_call.
  - apply untouched_callback.
Qed.

Lemma untouched_getItem (k : jsval) : preserves f (getItem k).
Proof using U.
  unfold getItem. frame.
  - apply untouched_call.
  - apply untouched_isExpired.
  - apply untouched_Date_now.
  - apply untouched_write_lastAccessed.
  - apply untouched_removeItem.
  - apply untouched_hit.
  - apply untouched_miss.
Qed.

Lemma untouched_clear_loop (keys : list jsval) : preserves f (clear_loop keys).
Proof using U.
  induction keys as [| k rest IH]; cbn [clear_loop]; frame.
  apply untouched_removeItem.
Qed.

Lemma untouched_clear : preserves f clear.
Proof using U.
  unfold clear. frame; [apply untouched_call | apply untouched_clear_loop].
Qed.

Lemma untouched_purge_scan (keys : list jsval) (tmp : list CacheItem) :
  preserves f (purge_scan keys tmp).
Proof using U.
  revert tmp. induction keys as [| k rest IH]; intros tmp; cbn [purge_scan]; frame.
  - apply untouched_call.
  - apply untouched_isExpired.
  - apply untouched_removeItem.
Qed.

Lemma untouched_purge_evict (stack : list CacheItem) (purgeSize : Q) :
  preserves f (purge_evict stack purgeSize).
Proof using U.
  induction stack as [| it rest IH]; cbn [purge_evict]; frame.
  apply untouched_removeItem.
Qed.

Lemma untouched_purge : preserves f _purge.
Proof using U.
  unfold _purge, purge_excess, size. frame.
  - apply untouched_call.
  - apply untouched_call.
  - apply untouched_purge_scan.
  - apply untouched_purge_evict.
Qed.

Lemma untouched_CacheItem_new (k v : jsval) (opts : option OptionsArg) :
  preserves f (CacheItem_new k v opts).
Proof using U.
  unfold CacheItem_new. destruct (negb (truthy k)); frame.
  - apply untouched_Date_now.
  - apply untouched_alloc.
Qed.

Lemma untouched_addItem (item : loc) (attempted : bool) :
  preserves f (_addItem item attempted).
Proof using U.
  unfold _addItem, _addItem_body.
  frame; try apply untouched_call; try apply untouched_purge.
Qed.

(** [setItem] up to its capacity check. *)
Lemma untouched_insertion (k v : jsval) (opts : option OptionsArg) :
  preserves f
    (old <- call (storage_get k) ;;
     match old with
     | Some _ => removeItem k ;; ret tt
     | None => ret tt
     end ;;
     item <- CacheItem_new k v opts ;;
     _addItem item false).
Proof using U.
  frame.
  - apply untouched_call.
  - apply untouched_removeItem.
  - apply untouched_CacheItem_new.
  - apply untouched_addItem.
Qed.

End UntouchedFrames.

Lemma Untouched_called {S} : Untouched (@called S).
Proof. split; reflexivity. Qed.

Lemma Untouched_maxSize {S} : Untouched (@_maxSize S).
Proof. split; reflexivity. Qed.

Lemma purges_app (ts us : list Task) : purges (ts ++ us) = purges ts ++ purges us.
Proof. apply List.filter_app. Qed.

Lemma Untouched_purges {S} : Untouched (fun w : World S => purges (timers w)).
Proof.
  split; try reflexivity. intros g k v w. simpl.
  rewrite purges_app. simpl. apply app_nil_r.
Qed.

Lemma bind_assoc {S A B C} (m : M S A) (k : A -> M S B) (h : B -> M S C)
    (w : World S) :
  bind (bind m k) h w = bind m (fun a => bind (k a) h) w.
Proof. unfold bind. destruct (m w) as [w' [e | a]]; reflexivity. Qed.

Lemma bind_ext {S A B} (m : M S A) (k k' : A -> M S B) (w : World S) :
  (forall a w', k a w' = k' a w') -> bind m k w = bind m k' w.
Proof.
  intros Hk. unfold bind. destruct (m w) as [w' [e | a]]; [reflexivity | apply Hk].
Qed.

(** [setItem] is the insertion followed by the capacity check. *)
Lemma setItem_assoc {S} `{Storage S} (k v : jsval) (opts : option OptionsArg)
    (w : World S) :
  setItem k v opts w =
  bind (old <- call (storage_get k) ;;
        match old with
        | Some _ => removeItem k ;; ret tt
        | None => ret tt
        end ;;
        item <- CacheItem_new k v opts ;;
        _addItem item false)
       (fun _ =>
          maxSize <- get_maxSize ;;
          if 0 <? maxSize then
            n <- size ;;
            if maxSize <? n then setTimeout PurgeTask else ret tt
          else ret tt) w.
Proof.
  symmetry. unfold setItem.
  rewrite bind_assoc. apply bind_ext. intros old wa.
  rewrite bind_assoc. apply bind_ext. intros _ wb.
  rewrite bind_assoc. apply bind_ext. intros item wc. reflexivity.
Qed.

(** X6. No operation runs a removal callback before it returns: callbacks are
    only ever scheduled, and run on a later turn of the event loop. *)
Theorem callbacks_are_deferred {S} `{Storage S} (w : World S) :
  (forall k, called (fst (getItem k w)) = called w) /\
  (forall k v opts, called (fst (setItem k v opts w)) = called w) /\
  (forall k, called (fst (removeItem k w)) = called w) /\
  called (fst (clear w)) = called w /\
  called (fst (_purge w)) = called w.
Proof.
  pose proof (@Untouched_called S) as U. repeat split; intros.
  - apply untouched_getItem, U.
  - rewrite setItem_assoc. apply preserves_bind.
    + apply untouched_insertion, U.
    + intros _. frame; try apply untouched_call; try exact U.
      intros w'. reflexivity.
  - apply untouched_removeItem, U.
  - apply untouched_clear, U.
  - apply untouched_purge, U.
Qed.

(** X7. When a removed item carries a callback, [removeItem] returns the
    item's value at once and leaves the callback pending; the next turn of
    the event loop calls it, once, with the item's key and value. *)
Theorem removal_callback_runs {S} `{Storage S} (w : World S) (k : jsval)
    (l : loc) (it : CacheItem) (g : fn) :
  snd (storage_remove k (_storage w)) = inr (Some l) ->
  heap w !! l = Some it ->
  callback (options it) = Some g ->
  timers w = [] ->
  let w' := fst (removeItem k w) in
  snd (removeItem k w) = inr (value it) /\
  called w' = called w /\
  timers w' = [CallbackTask g (key it) (value it)] /\
  called (fst (run_next w')) = called w ++ [(g, key it, value it)] /\
  timers (fst (run_next w')) = [].
Proof.
  intros Hrem Hheap Hcb Htimers. cbv zeta.
  unfold removeItem, bind, call, read_item.
  destruct (storage_remove k (_storage w)) as [s' r]. simpl in Hrem. subst r.
  simpl. rewrite Hheap, Hcb. simpl. unfold run_next. simpl.
  rewrite Htimers. simpl. repeat split.
Qed.

Lemma removal_callback_runs_witness :
  let w := fst (setItem (VStr "k") (VNum 1) (Some (with_callback 7%nat))
                  (Cache None Basic_new ticking)) in
  let w' := fst (removeItem (VStr "k") w) in
  snd (removeItem (VStr "k") w) = inr (VNum 1) /\
  called w' = called w /\
  timers w' = [CallbackTask 7%nat (VStr "k") (VNum 1)] /\
  called (fst (run_next w')) = called w ++ [(7%nat, VStr "k", VNum 1)] /\
  timers (fst (run_next w')) = [].
Proof.
  intros w.
  apply (removal_callback_runs w (VStr "k") 0%nat
           (fresh_item (VStr "k") (VNum 1) (Some (with_callback 7%nat)) 1000)
           7%nat); reflexivity.
Defined.

(** ** When the purge is scheduled *)

Lemma unbounded_setItem {S} `{Storage S} (k v : jsval) (opts : option OptionsArg)
    (w : World S) :
  _maxSize w <= 0 ->
  _maxSize (fst (setItem k v opts w)) = _maxSize w /\
  purges (timers (fst (setItem k v opts w))) = purges (timers w).
Proof.
  intros Hmax. remember (setItem k v opts w) as r eqn:Hr.
  rewrite setItem_assoc in Hr. unfold bind at 1 in Hr.
  pose proof (untouched_insertion _ Untouched_maxSize k v opts w) as Hm.
  pose proof (untouched_insertion _ Untouched_purges k v opts w) as Hp.
  cbv beta in Hp.
  destruct ((old <- call (storage_get k) ;;
             match old with
             | Some _ => removeItem k ;; ret tt
             | None => ret tt
             end ;;
             item <- CacheItem_new k v opts ;;
             _addItem item false) w) as [wd [e | u]]; simpl in Hm, Hp.
  - subst r. split; assumption.
  - unfold bind, get_maxSize in Hr.
    destruct (Z.ltb_spec 0 (_maxSize wd)); [lia |]. subst r. split; assumption.
Qed.

(** The actions that neither insert nor run a timeout. *)
Lemma untouched_quiet_act {S} `{Storage S} {X} (f : World S -> X) (a : Act) :
  Untouched f ->
  match a with
  | ActOp (OpSetItem _ _ _) | ActOp OpTurn => True
  | _ => preserves f (run_act a)
  end.
Proof.
  intros U. destruct a as [k | [k v opts | k | | |]]; cbn [run_act run_op];
    try exact I; frame.
  - apply untouched_getItem, U.
  - apply untouched_removeItem, U.
  - apply untouched_clear, U.
  - apply untouched_purge, U.
Qed.

Lemma unbounded_act {S} `{Storage S} (a : Act) (w : World S) :
  _maxSize w <= 0 -> purges (timers w) = [] ->
  _maxSize (fst (run_act a w)) <= 0 /\ purges (timers (fst (run_act a w))) = [].
Proof.
  intros Hmax Hnone.
  pose proof (untouched_quiet_act _ a Untouched_maxSize) as Hm.
  pose proof (untouched_quiet_act _ a Untouched_purges) as Hp.
  destruct a as [k | [k v opts | k | | |]];
    try (specialize (Hm w); specialize (Hp w); cbv beta in Hp;
         rewrite Hm, Hp; split; assumption).
  - cbn [run_act run_op]. destruct (unbounded_setItem k v opts w Hmax) as [Hm' Hp'].
    rewrite Hnone in Hp'. unfold try_catch, bind.
    destruct (setItem k v opts w) as [w' [e | u]]; simpl in *;
      rewrite Hm'; split; assumption.
  - cbn [run_act run_op]. unfold try_catch, bind, run_next.
    destruct (timers w) as [| [| g k v] rest] eqn:Ht; simpl.
    + rewrite Ht. split; assumption.
    + discriminate Hnone.
    + split; assumption.
Qed.

(** X8. An unbounded cache (built without [maxSize], or with 0, which the
    constructor turns into -1) never schedules the deferred purge, whatever
    is done with it and whatever the backend does. *)
Theorem unbounded_never_schedules_purge {S} `{Storage S} (acts : list Act)
    (w : World S) :
  _maxSize w <= 0 -> purges (timers w) = [] ->
  purges (timers (fst (run_acts acts w))) = [].
Proof.
  revert w. induction acts as [| a rest IH]; intros w Hmax Hnone.
  - exact Hnone.
  - cbn [run_acts]. unfold bind at 1.
    destruct (unbounded_act a w Hmax Hnone) as [Hmax' Hnone'].
    destruct (run_act a w) as [w' [e | rs]]; simpl in Hmax', Hnone';
      [exact Hnone' |].
    unfold bind. specialize (IH w' Hmax' Hnone').
    destruct (run_acts rest w') as [w'' [e | rs']]; exact IH.
Qed.

Lemma unbounded_never_schedules_purge_witness :
  purges (timers (fst (run_acts
    [ActOp (OpSetItem (VStr "a") (VNum 1) None);
     ActOp (OpSetItem (VStr "b") (VNum 2) None);
     ActGetItem (VStr "a"); ActOp OpTurn]
    (Cache (Some 0) {| base := Basic_new |} ticking)))) = [].
Proof.
  apply unbounded_never_schedules_purge.
  - simpl. lia.
  - reflexivity.
Defined.

(** X9. [setItem] schedules the deferred purge exactly when the cache is
    bounded and the backend's size after the insert exceeds [maxSize]; the
    purge that an insertion failure runs inline schedules none. *)
Theorem setItem_schedules_purge {S} `{Lawful S} (w w1 : World S) (k v : jsval)
    (opts : option OptionsArg) :
  setItem k v opts w = (w1, inr tt) ->
  purges (timers w1) = purges (timers w) ++
    (if 0 <? _maxSize w then
       match snd (storage_size (_storage w1)) with
       | inr n => if _maxSize w <? n then [PurgeTask] else []
       | inl _ => []
       end
     else []).
Proof.
  rewrite setItem_assoc. intros Hrun.
  apply bind_inr in Hrun as (wd & [] & Hins & Htail).
  pose proof (untouched_insertion _ Untouched_maxSize k v opts w) as Hm.
  pose proof (untouched_insertion _ Untouched_purges k v opts w) as Hp.
  cbv beta in Hp. rewrite Hins in Hm, Hp. simpl in Hm, Hp.
  rewrite <- Hm, <- Hp. clear Hm Hp Hins.
  unfold bind, get_maxSize, size, call in Htail.
  destruct (0 <? _maxSize wd).
  - pose proof (size_reads (_storage wd)) as Hsize.
    destruct (storage_size (_storage wd)) as [s' [e | n]] eqn:Hsz;
      [discriminate |]. simpl in Hsize. subst s'.
    destruct (_maxSize wd <? n) eqn:Hover; injection Htail as <-; simpl;
      rewrite Hsz; simpl; rewrite Hover.
    + rewrite purges_app. reflexivity.
    + rewrite app_nil_r. reflexivity.
  - injection Htail as <-. rewrite app_nil_r. reflexivity.
Qed.

Lemma setItem_schedules_purge_witness :
  let w := fst ((setItem (VStr "a") (VNum 1) None ;;
                 setItem (VStr "b") (VNum 2) None)
                  (Cache (Some 2) {| base := Basic_new |} ticking)) in
  let w1 := fst (setItem (VStr "c") (VNum 3) None w) in
  purges (timers w) = [] /\ purges (timers w1) = [PurgeTask].
Proof.
  intros w w1. split; [reflexivity |].
  assert (Hrun : setItem (VStr "c") (VNum 3) None w = (w1, inr tt))
    by (vm_compute; reflexivity).
  rewrite (setItem_schedules_purge w w1 (VStr "c") (VNum 3) None Hrun).
  vm_compute. reflexivity.
Defined.

(** ** What the counters count *)

(** [getItem] is what it does up to the counting, followed by the counting. *)
Lemma getItem_assoc {S} `{Storage S} (k : jsval) (w : World S) :
  getItem k w =
  bind (item <- call (storage_get k) ;;
        item <-
          match item with
          | Some l =>
              expired <- _isExpired (Some l) ;;
              if negb expired then
                now <- Date_now ;; write_lastAccessed l now ;; ret (Some l)
              else removeItem k ;; ret None
          | None => ret None
          end ;;
        match item with
        | Some l => it <- read_item (Some l) ;; ret (value it)
        | None => ret VNull
        end)
       (fun returnItem =>
          (if truthy returnItem then hit else miss) ;; ret returnItem) w.
Proof.
  symmetry. unfold getItem.
  rewrite bind_assoc. apply bind_ext. intros item wa.
  rewrite bind_assoc. apply bind_ext. intros item' wb. reflexivity.
Qed.

Lemma getItem_stats {S} `{Storage S} (k : jsval) (w : World S) :
  forall w' r, getItem k w = (w', r) ->
  _stats w' =
    match r with
    | inr v =>
        if truthy v
        then {| hits := hits (_stats w) + 1; misses := misses (_stats w) |}
        else {| hits := hits (_stats w); misses := misses (_stats w) + 1 |}
    | inl _ => _stats w
    end.
Proof.
  intros w' r. rewrite getItem_assoc. unfold bind at 1.
  pose proof (@Inert_stats S) as I. pose proof (Inert_Quiet _ I) as Q.
  match goal with
  | |- context [match ?m w with _ => _ end] =>
      assert (Hp : preserves (@_stats S) m)
  end.
  { frame.
    - apply preserves_call, I.
    - apply preserves_isExpired, Q.
    - apply preserves_Date_now, Q.
    - apply preserves_write_lastAccessed, I.
    - apply preserves_removeItem, Q. }
  specialize (Hp w).
  match goal with
  | |- context [match ?m w with _ => _ end] => destruct (m w) as [wc [e | v]]
  end; simpl in Hp.
  - intros [= <- <-]. exact Hp.
  - unfold bind, hit, miss, ret.
    destruct (truthy v) eqn:Hv; intros [= <- <-]; simpl; rewrite Hv, Hp;
      reflexivity.
Qed.

Lemma count_truthy_app (rs rs' : list jsval) :
  count_truthy (rs ++ rs') = count_truthy rs + count_truthy rs'.
Proof.
  unfold count_truthy. rewrite List.filter_app, length_app. lia.
Qed.

Lemma count_falsy_app (rs rs' : list jsval) :
  count_falsy (rs ++ rs') = count_falsy rs + count_falsy rs'.
Proof.
  unfold count_falsy. rewrite List.filter_app, length_app. lia.
Qed.

Lemma run_act_stats {S} `{Storage S} (a : Act) (w : World S) :
  exists rs,
    snd (run_act a w) = inr rs /\
    hits (_stats (fst (run_act a w))) = hits (_stats w) + count_truthy rs /\
    misses (_stats (fst (run_act a w))) = misses (_stats w) + count_falsy rs.
Proof.
  destruct a as [k | o]; cbn [run_act]; unfold try_catch, bind.
  - pose proof (getItem_stats k w) as Hs.
    destruct (getItem k w) as [w' [e | v]]; specialize (Hs _ _ eq_refl); simpl.
    + exists []. rewrite Hs. unfold count_truthy, count_falsy. simpl.
      repeat split; lia.
    + exists [v]. rewrite Hs. unfold count_truthy, count_falsy. simpl.
      destruct (truthy v); simpl; repeat split; lia.
  - pose proof (preserves_run_op (@_stats S) o Inert_stats w) as Hs.
    exists []. unfold count_truthy, count_falsy.
    destruct (run_op o w) as [w' [e | u]]; simpl in *; rewrite Hs;
      repeat split; lia.
Qed.

(** X10. The two counters report the reads and nothing else: over any run of
    reads, writes, removals, clears, purges and event-loop turns, [hits]
    grows by the number of reads that returned a truthy value and [misses]
    by the number of reads that returned anything else; a read that throws
    counts as neither. *)
Theorem stats_count_reads {S} `{Storage S} (acts : list Act) (w : World S) :
  exists rs,
    snd (run_acts acts w) = inr rs /\
    hits (_stats (fst (run_acts acts w))) = hits (_stats w) + count_truthy rs /\
    misses (_stats (fst (run_acts acts w))) = misses (_stats w) + count_falsy rs.
Proof.
  revert w. induction acts as [| a rest IH]; intros w.
  - exists []. unfold count_truthy, count_falsy. simpl. repeat split; lia.
  - cbn [run_acts]. unfold bind.
    destruct (run_act_stats a w) as (rs & Hr & Hh & Hm).
    destruct (run_act a w) as [w' r]. simpl in Hr, Hh, Hm. subst r.
    destruct (IH w') as (rs' & Hr' & Hh' & Hm').
    destruct (run_acts rest w') as [w'' r']. simpl in Hr', Hh', Hm'. subst r'.
    exists (rs ++ rs'). simpl. rewrite count_truthy_app, count_falsy_app.
    repeat split; lia.
Qed.

(** ** Keys that are not accepted *)

Lemma invalid_key_frame {S} `{Storage S} {X} (f : World S -> X) (k v : jsval)
    (opts : option OptionsArg) :
  Quiet f -> truthy k = false -> preserves f (setItem k v opts).
Proof.
  intros Q Hk. unfold setItem, CacheItem_new. rewrite Hk. cbn [negb].
  apply preserves_bind; [apply (quiet_get f Q) |]. intros old.
  apply preserves_bind.
  - destruct old; frame. apply preserves_removeItem, Q.
  - intros _ w. reflexivity.
Qed.

(** X11. For a key that is not truthy (empty, [null], absent, 0, [false])
    [setItem] always throws, allocates no item and never calls the
    backend's [set]; when the backend holds nothing under the key, what it
    throws is the invalid-key error. *)
Theorem invalid_key_inserts_nothing {B} `{Storage B} (w : World (Probe B))
    (k v : jsval) (opts : option OptionsArg) :
  truthy k = false ->
  (exists e, snd (setItem k v opts w) = inl e) /\
  heap (fst (setItem k v opts w)) = heap w /\
  set_count (fst (setItem k v opts w)) = set_count w /\
  (snd (storage_get k (_storage w)) = inr None ->
   snd (setItem k v opts w) = inl (Error "Cache key cannot be null or empty")).
Proof.
  intros Hk. split; [| split; [| split]].
  - unfold setItem, CacheItem_new. rewrite Hk. cbn [negb]. unfold bind.
    destruct (call (storage_get k) w) as [wa [e | [l |]]]; [eauto | |].
    + destruct (removeItem k wa) as [wb [e | u]]; simpl; eauto.
    + simpl. eauto.
  - apply (invalid_key_frame (@heap (Probe B)) k v opts Quiet_heap Hk).
  - apply (invalid_key_frame (@set_count B) k v opts Quiet_set_count Hk).
  - intros Hget. unfold setItem, CacheItem_new. rewrite Hk. cbn [negb].
    unfold bind, call. destruct (storage_get k (_storage w)) as [s' r].
    simpl in Hget. subst r. reflexivity.
Qed.

Lemma invalid_key_inserts_nothing_witness :
  let w := Cache None {| probed := Basic_new; set_calls := 0 |} ticking in
  (exists e, snd (setItem (VStr "") (VNum 1) None w) = inl e) /\
  heap (fst (setItem (VStr "") (VNum 1) None w)) = heap w /\
  set_count (fst (setItem (VStr "") (VNum 1) None w)) = set_count w /\
  (snd (storage_get (VStr "") (_storage w)) = inr None ->
   snd (setItem (VStr "") (VNum 1) None w)
     = inl (Error "Cache key cannot be null or empty")).
Proof.
  intros w. apply (invalid_key_inserts_nothing w (VStr "") (VNum 1) None).
  reflexivity.
Defined.

(** ** Backends of the [Cache.Basic] kind *)

Lemma prop_assign_ne {A} (name name' : string) (v : A) (obj : list (string * A)) :
  name <> name' -> prop name' (assign name v obj) = prop name' obj.
Proof.
  intros Hne. induction obj as [| [n x] rest IH]; simpl.
  - destruct (String.eqb_spec name name'); [contradiction | reflexivity].
  - destruct (String.eqb_spec n name) as [-> | Hn]; simpl.
    + destruct (String.eqb_spec name name'); [contradiction | reflexivity].
    + destruct (String.eqb n name'); [reflexivity | exact IH].
Qed.

Lemma prop_None {A} (name : string) (obj : list (string * A)) :
  prop name obj = None <-> ~ In name (map fst obj).
Proof.
  induction obj as [| [n x] rest IH]; simpl.
  - split; [intros _ [] | reflexivity].
  - destruct (String.eqb_spec n name) as [-> | Hn].
    + split; [discriminate | intros Hx; exfalso; apply Hx; left; reflexivity].
    + rewrite IH. split; [intros Hx [? | ?]; [contradiction | auto] | auto].
Qed.

Lemma prop_Some_In {A} (name : string) (v : A) (obj : list (string * A)) :
  prop name obj = Some v -> In (name, v) obj.
Proof.
  induction obj as [| [n x] rest IH]; simpl; [discriminate |].
  destruct (String.eqb_spec n name) as [-> | Hn].
  - intros [= ->]. left. reflexivity.
  - intros Hp. right. apply IH, Hp.
Qed.

Lemma map_fst_assign {A} (name : string) (v : A) (obj : list (string * A)) :
  map fst (assign name v obj) =
  if existsb (String.eqb name) (map fst obj) then map fst obj
  else map fst obj ++ [name].
Proof.
  induction obj as [| [n x] rest IH]; simpl; [reflexivity |].
  rewrite (String.eqb_sym name n).
  destruct (String.eqb n name); simpl; [reflexivity |].
  rewrite IH. destruct (existsb (String.eqb name) (map fst rest)); reflexivity.
Qed.

Lemma In_assign {A} (name : string) (v : A) (obj : list (string * A))
    (p : string * A) :
  In p (assign name v obj) -> p = (name, v) \/ In p obj.
Proof.
  induction obj as [| [n x] rest IH]; simpl.
  - intros [<- | []]. left. reflexivity.
  - destruct (String.eqb_spec n name) as [-> | Hn]; simpl.
    + intros [<- | Hin]; auto.
    + intros [<- | Hin]; auto. destruct (IH Hin); auto.
Qed.

Lemma delete_prop_filter {A} (name : string) (obj : list (string * A)) :
  List.NoDup (map fst obj) ->
  delete_prop name obj
  = List.filter (fun p => negb (String.eqb (fst p) name)) obj.
Proof.
  induction obj as [| [n x] rest IH]; simpl; [reflexivity |].
  intros Hnd. apply List.NoDup_cons_iff in Hnd as [Hn Hnd].
  destruct (String.eqb_spec n name) as [-> | Hne]; simpl.
  - symmetry. apply forallb_filter_id. apply forallb_forall.
    intros [m y] Hin. simpl. destruct (String.eqb_spec m name) as [-> | ?];
      [| reflexivity].
    exfalso. apply Hn. apply (in_map fst) in Hin. exact Hin.
  - rewrite IH by exact Hnd. reflexivity.
Qed.

Lemma NoDup_filter_fst {A} (q : string * A -> bool) (obj : list (string * A)) :
  List.NoDup (map fst obj) -> List.NoDup (map fst (List.filter q obj)).
Proof.
  induction obj as [| p rest IH]; simpl; [auto |].
  intros Hnd. apply List.NoDup_cons_iff in Hnd as [Hn Hnd].
  destruct (q p); simpl; [| auto].
  apply List.NoDup_cons_iff. split; [| auto].
  intros Hin. apply Hn. apply in_map_iff in Hin as (p' & Hp' & Hin).
  apply filter_In in Hin as [Hin _]. rewrite <- Hp'. apply in_map, Hin.
Qed.

#[export] Instance Basic_Shelf : Shelf Basic _items.
Proof.
  split; try reflexivity.
  intros k s. simpl. unfold Basic_remove, Basic_get.
  destruct (prop (ToPropertyKey k) (_items s)) eqn:Hp; simpl.
  - split; reflexivity.
  - split; [reflexivity |]. apply prop_None in Hp.
    induction (_items s) as [| [n x] rest IH]; simpl; [reflexivity |].
    simpl in Hp. destruct (String.eqb_spec n (ToPropertyKey k)) as [-> | ?].
    + exfalso. apply Hp. left. reflexivity.
    + f_equal. apply IH. intros Hin. apply Hp. right. exact Hin.
Qed.

Lemma delete_prop_absent {A} (name : string) (obj : list (string * A)) :
  prop name obj = None -> delete_prop name obj = obj.
Proof.
  induction obj as [| [n x] rest IH]; simpl; [reflexivity |].
  destruct (String.eqb n name); [discriminate |]. intros Hp. f_equal. auto.
Qed.

Lemma Basic_remove_entries (k : jsval) (b : Basic) :
  snd (Basic_remove k b) = prop (ToPropertyKey k) (_items b) /\
  _items (fst (Basic_remove k b)) = delete_prop (ToPropertyKey k) (_items b).
Proof.
  unfold Basic_remove, Basic_get.
  destruct (prop (ToPropertyKey k) (_items b)) eqn:Hp; simpl.
  - split; reflexivity.
  - split; [reflexivity |]. symmetry. apply delete_prop_absent, Hp.
Qed.

#[export] Instance Sized_Shelf : Shelf Sized (fun s => _items (base s)).
Proof.
  split; try reflexivity.
  intros k s. simpl. pose proof (Basic_remove_entries k (base s)) as [Hr He].
  destruct (Basic_remove k (base s)) as [b' r]. simpl in *. subst r.
  split; [reflexivity | exact He].
Qed.

#[export] Instance Quota_Shelf : Shelf Quota (fun s => _items (held s)).
Proof.
  split; try reflexivity.
  - intros k s. simpl. pose proof (Basic_remove_entries k (held s)) as [Hr He].
    destruct (Basic_remove k (held s)) as [b' r]. simpl in *. subst r.
    split; [reflexivity | exact He].
  - intros k l s. simpl. destruct (Basic_get k (held s)); [reflexivity |].
    destruct (quota s <=? _count (held s)); reflexivity.
Qed.

Section Invariants.
Context {S : Type} `{Storage S} (P : World S -> Prop).

Lemma keeps_ret {A} (a : A) : keeps P (ret a).
Proof. intros w Hw. exact Hw. Qed.

Lemma keeps_throw {A} (e : exn) : keeps P (throw (A := A) e).
Proof. intros w Hw. exact Hw. Qed.

Lemma keeps_bind {A B} (m : M S A) (k : A -> M S B) :
  keeps P m -> (forall a, keeps P (k a)) -> keeps P (bind m k).
Proof.
  intros Hm Hk w Hw. unfold bind. specialize (Hm w Hw).
  destruct (m w) as [w' [e | a]]; simpl in *; [exact Hm | apply Hk, Hm].
Qed.

Lemma keeps_try_catch {A} (m : M S A) (h : exn -> M S A) :
  keeps P m -> (forall e, keeps P (h e)) -> keeps P (try_catch m h).
Proof.
  intros Hm Hh w Hw. unfold try_catch. specialize (Hm w Hw).
  destruct (m w) as [w' [e | a]]; simpl in *; [apply Hh, Hm | exact Hm].
Qed.

Lemma keeps_read_item (item : option loc) : keeps P (read_item item).
Proof.
  intros w Hw. unfold read_item.
  destruct item as [l |]; [destruct (heap w !! l) |]; exact Hw.
Qed.

Lemma keeps_get_maxSize : keeps P get_maxSize.
Proof. intros w Hw. exact Hw. Qed.

Lemma keeps_get_fillFactor : keeps P get_fillFactor.
Proof. intros w Hw. exact Hw. Qed.

End Invariants.

Create HintDb inv.
#[local] Hint Resolve keeps_ret keeps_throw keeps_read_item keeps_get_maxSize
  keeps_get_fillFactor : inv.

Ltac inv_steps :=
  repeat first
    [ match goal with
      | |- keeps _ (bind _ _) => apply keeps_bind
      | |- keeps _ (try_catch _ _) => apply keeps_try_catch
      | |- forall _, _ => intro
      | |- keeps _ (match ?x with _ => _ end) => destruct x
      end
    | solve [eauto with inv] ].

Section Tidy.
Context {S : Type} `{Storage S} (entries : S -> list (string * loc))
  {Sh : Shelf S entries}.

(** Tidiness only looks at the entries and, through them, at the keys of
    the items they refer to. *)
Lemma tidy_transfer (w w' : World S) :
  entries (_storage w') = entries (_storage w) ->
  (forall l it, heap w !! l = Some it ->
     exists it', heap w' !! l = Some it' /\ key it' = key it) ->
  tidy entries w -> tidy entries w'.
Proof.
  intros He Hh [Hnd Hok]. unfold tidy. rewrite He. split; [exact Hnd |].
  eapply Forall_impl; [exact Hok |]. intros p (it & Hit & Hname).
  destruct (Hh _ _ Hit) as (it' & Hit' & Hkey).
  exists it'. split; [exact Hit' | congruence].
Qed.

Lemma tidy_same (w w' : World S) :
  entries (_storage w') = entries (_storage w) -> heap w' = heap w ->
  tidy entries w -> tidy entries w'.
Proof.
  intros He Hh. apply tidy_transfer; [exact He |].
  intros l it Hit. exists it. rewrite Hh. auto.
Qed.

Lemma tidy_call_get (k : jsval) : keeps (tidy entries) (call (storage_get k)).
Proof.
  intros w. unfold call. rewrite shelf_get. apply tidy_same; reflexivity.
Qed.

Lemma tidy_call_keys : keeps (tidy entries) (call storage_keys).
Proof.
  intros w. unfold call. rewrite shelf_keys. apply tidy_same; reflexivity.
Qed.

Lemma tidy_call_size : keeps (tidy entries) (call storage_size).
Proof.
  intros w. unfold call. pose proof (shelf_size (_storage w)) as Hs.
  destruct (storage_size (_storage w)) as [s' r]. simpl in *.
  apply tidy_same; [exact Hs | reflexivity].
Qed.

Lemma tidy_call_remove (k : jsval) :
  keeps (tidy entries) (call (storage_remove k)).
Proof.
  intros w [Hnd Hok]. unfold call.
  destruct (shelf_remove k (_storage w)) as [_ He].
  destruct (storage_remove k (_storage w)) as [s' r]. simpl in *.
  unfold tidy. simpl. rewrite He, delete_prop_filter by exact Hnd. split.
  - apply NoDup_filter_fst, Hnd.
  - apply Forall_forall. intros p Hp. apply list_elem_of_In, filter_In in Hp as [Hp _].
    rewrite Forall_forall in Hok. apply Hok, list_elem_of_In, Hp.
Qed.

Lemma tidy_Date_now : keeps (tidy entries) Date_now.
Proof. intros w. apply tidy_same; reflexivity. Qed.

Lemma tidy_setTimeout (t : Task) : keeps (tidy entries) (setTimeout t).
Proof. intros w. apply tidy_same; reflexivity. Qed.

Lemma tidy_hit : keeps (tidy entries) hit.
Proof. intros w. apply tidy_same; reflexivity. Qed.

Lemma tidy_miss : keeps (tidy entries) miss.
Proof. intros w. apply tidy_same; reflexivity. Qed.

Lemma tidy_write_lastAccessed (l : loc) (t : Z) :
  keeps (tidy entries) (write_lastAccessed l t).
Proof.
  intros w Hw. unfold write_lastAccessed.
  destruct (heap w !! l) as [it |] eqn:Hl; [| exact Hw].
  revert Hw. apply tidy_transfer; [reflexivity |]. cbn [heap with_heap].
  intros l' it' Hit'. destruct (decide (l = l')) as [Heq | Hne].
  - subst l'. exists (update_lastAccessed t it). split.
    + apply list_lookup_insert_eq. eapply lookup_lt_Some. exact Hl.
    + pose proof (eq_trans (eq_sym Hl) Hit') as Heq. injection Heq as <-.
      reflexivity.
  - exists it'. split; [| reflexivity].
    etransitivity; [apply list_lookup_insert_ne; exact Hne | exact Hit'].
Qed.

Lemma tidy_alloc (it : CacheItem) : keeps (tidy entries) (alloc it).
Proof.
  intros w. apply tidy_transfer; [reflexivity |]. cbn [heap with_heap].
  intros l it' Hit'. exists it'. split; [| reflexivity].
  apply lookup_app_l_Some. exact Hit'.
Qed.

(** Storing an item under its own key. *)
Lemma tidy_call_set (w : World S) (item : loc) (it : CacheItem) :
  heap w !! item = Some it ->
  tidy entries w -> tidy entries (fst (call (storage_set (key it) item) w)).
Proof.
  intros Hit [Hnd Hok]. unfold call.
  pose proof (shelf_set (key it) item (_storage w)) as He.
  destruct (storage_set (key it) item (_storage w)) as [s' [e | u]];
    simpl in *.
  - apply (tidy_same w); [exact He | reflexivity | split; assumption].
  - unfold tidy. simpl. rewrite He. split.
    + rewrite map_fst_assign.
      destruct (existsb _ _) eqn:Hex; [exact Hnd |].
      apply NoDup_ListNoDup, NoDup_app. split; [| split].
      * apply NoDup_ListNoDup, Hnd.
      * intros n Hn Hx. apply list_elem_of_In in Hx as [Hx | []]. subst n.
        apply list_elem_of_In in Hn.
        assert (existsb (String.eqb (ToPropertyKey (key it)))
                  (map fst (entries (_storage w))) = true); [| congruence].
        apply existsb_exists. exists (ToPropertyKey (key it)).
        split; [exact Hn | apply String.eqb_refl].
      * apply NoDup_singleton.
    + apply Forall_forall. intros p Hp.
      apply list_elem_of_In, In_assign in Hp as [-> | Hp].
      * exists it. split; [exact Hit | reflexivity].
      * rewrite Forall_forall in Hok. apply Hok, list_elem_of_In, Hp.
Qed.

End Tidy.

Ltac tidy_steps :=
  repeat first
    [ match goal with
      | |- keeps _ (bind _ _) => apply keeps_bind
      | |- keeps _ (try_catch _ _) => apply keeps_try_catch
      | |- forall _, _ => intro
      | |- keeps _ (match ?x with _ => _ end) => destruct x
      | |- keeps _ (call (storage_get _)) => apply tidy_call_get
      | |- keeps _ (call (storage_remove _)) => apply tidy_call_remove
      | |- keeps _ (call storage_keys) => apply tidy_call_keys
      | |- keeps _ (call storage_size) => apply tidy_call_size
      | |- keeps _ size => apply tidy_call_size
      | |- keeps _ Date_now => apply tidy_Date_now
      | |- keeps _ (setTimeout _) => apply tidy_setTimeout
      | |- keeps _ hit => apply tidy_hit
      | |- keeps _ miss => apply tidy_miss
      | |- keeps _ (write_lastAccessed _ _) => apply tidy_write_lastAccessed
      | |- keeps _ (alloc _) => apply tidy_alloc
      end
    | solve [eauto with inv] ].

Section TidyMethods.
Context {S : Type} `{Storage S} (entries : S -> list (string * loc))
  {Sh : Shelf S entries}.

Lemma tidy_isExpired (item : option loc) : keeps (tidy entries) (_isExpired item).
Proof. unfold _isExpired. tidy_steps. Qed.

Lemma tidy_removeItem (k : jsval) : keeps (tidy entries) (removeItem k).
Proof. unfold removeItem. tidy_steps. Qed.

Lemma tidy_getItem (k : jsval) : keeps (tidy entries) (getItem k).
Proof.
  unfold getItem. tidy_steps; try apply tidy_isExpired; apply tidy_removeItem.
Qed.

Lemma tidy_clear_loop (keys : list jsval) : keeps (tidy entries) (clear_loop keys).
Proof.
  induction keys as [| k rest IH]; cbn [clear_loop]; tidy_steps.
  apply tidy_removeItem.
Qed.

Lemma tidy_clear : keeps (tidy entries) clear.
Proof. unfold clear. tidy_steps. apply tidy_clear_loop. Qed.

Lemma tidy_purge_scan (keys : list jsval) (tmp : list CacheItem) :
  keeps (tidy entries) (purge_scan keys tmp).
Proof.
  revert tmp. induction keys as [| k rest IH]; intros tmp; cbn [purge_scan];
    tidy_steps; try apply tidy_isExpired; apply tidy_removeItem.
Qed.

Lemma tidy_purge_evict (stack : list CacheItem) (purgeSize : Q) :
  keeps (tidy entries) (purge_evict stack purgeSize).
Proof.
  induction stack as [| it rest IH]; cbn [purge_evict]; tidy_steps.
  apply tidy_removeItem.
Qed.

Lemma tidy_purge : keeps (tidy entries) _purge.
Proof.
  unfold _purge, purge_excess. tidy_steps.
  - apply tidy_purge_scan.
  - apply tidy_purge_evict.
Qed.

Lemma tidy_CacheItem_new (k v : jsval) (opts : option OptionsArg) :
  keeps (tidy entries) (CacheItem_new k v opts).
Proof. unfold CacheItem_new. destruct (negb (truthy k)); tidy_steps. Qed.

Lemma tidy_attempt (item : loc) :
  keeps (tidy entries)
    (it <- read_item (Some item) ;; call (storage_set (key it) item)).
Proof.
  intros w Hw. unfold bind, read_item.
  destruct (heap w !! item) as [it |] eqn:Hit; [| exact Hw].
  pose proof (tidy_call_set entries w item it Hit Hw) as Ht.
  destruct (call (storage_set (key it) item) w) as [w' [e | u]]; exact Ht.
Qed.

Lemma tidy_addItem (item : loc) (attempted : bool) :
  keeps (tidy entries) (_addItem item attempted).
Proof.
  unfold _addItem, _addItem_body.
  apply keeps_try_catch; [apply tidy_attempt |]. intros e.
  destruct attempted; [apply keeps_throw |].
  apply keeps_bind; [apply tidy_purge |]. intros _.
  apply keeps_try_catch; [apply tidy_attempt |]. intros e'. apply keeps_throw.
Qed.

Lemma tidy_setItem (k v : jsval) (opts : option OptionsArg) :
  keeps (tidy entries) (setItem k v opts).
Proof.
  unfold setItem. tidy_steps.
  - apply tidy_removeItem.
  - apply tidy_CacheItem_new.
  - apply tidy_addItem.
Qed.

Lemma tidy_run_next : keeps (tidy entries) run_next.
Proof.
  intros w Hw. unfold run_next. destruct (timers w) as [| [| g k v] rest].
  - exact Hw.
  - apply tidy_purge. revert Hw. apply tidy_same; reflexivity.
  - revert Hw. apply tidy_same; reflexivity.
Qed.

Lemma tidy_run_act (a : Act) : keeps (tidy entries) (run_act a).
Proof.
  destruct a as [k | [k v opts | k | | |]]; cbn [run_act run_op]; tidy_steps.
  - apply tidy_getItem.
  - apply tidy_setItem.
  - apply tidy_removeItem.
  - apply tidy_clear.
  - apply tidy_purge.
  - apply tidy_run_next.
Qed.

End TidyMethods.

Lemma tidy_Cache {S} (entries : S -> list (string * loc)) (maxSize : option Z)
    (storage : S) (clk : nat -> Z) :
  entries storage = [] -> tidy entries (Cache maxSize storage clk).
Proof.
  intros He. unfold tidy. simpl. rewrite He. split; constructor.
Qed.

(** X12. The data-model invariant holds over every backend of the [Cache.Basic]
    kind: whatever a caller does, and whatever fails, the names of the
    entries stay distinct and every entry refers to an item whose own key
    names it. *)
Theorem tidy_is_kept {S} `{Storage S} (entries : S -> list (string * loc))
    (Sh : Shelf S entries) (acts : list Act) (w : World S) :
  tidy entries w -> tidy entries (fst (run_acts acts w)).
Proof.
  revert w. induction acts as [| a rest IH]; intros w Hw.
  - exact Hw.
  - cbn [run_acts]. revert w Hw.
    change (keeps (tidy entries)
              (rs <- run_act a ;; rs' <- run_acts rest ;; ret (rs ++ rs'))).
    apply keeps_bind.
    + apply (tidy_run_act entries a).
    + intros rs. apply keeps_bind.
      * exact IH.
      * intros rs'. apply keeps_ret.
Qed.

Lemma tidy_is_kept_witness :
  tidy _items
    (fst (run_acts
            [ActOp (OpSetItem (VStr "a") (VNum 1) None);
             ActOp (OpSetItem (VStr "a") (VNum 2) None);
             ActGetItem (VStr "a"); ActOp OpClear]
            (Cache None Basic_new ticking))).
Proof.
  apply (tidy_is_kept _items Basic_Shelf).
  apply tidy_Cache. reflexivity.
Defined.

(** ** Emptying a backend of the [Cache.Basic] kind *)

Lemma prop_app_fresh {A} (name : string) (obj rest : list (string * A)) :
  ~ In name (map fst obj) -> prop name (obj ++ rest) = prop name rest.
Proof.
  induction obj as [| [n x] more IH]; simpl; [reflexivity |].
  intros Hn. destruct (String.eqb_spec n name) as [-> | Hne].
  - exfalso. apply Hn. left. reflexivity.
  - apply IH. intros Hin. apply Hn. right. exact Hin.
Qed.

Lemma delete_prop_app_fresh {A} (name : string) (obj rest : list (string * A)) :
  ~ In name (map fst obj) ->
  delete_prop name (obj ++ rest) = obj ++ delete_prop name rest.
Proof.
  induction obj as [| [n x] more IH]; simpl; [reflexivity |].
  intros Hn. destruct (String.eqb_spec n name) as [-> | Hne].
  - exfalso. apply Hn. left. reflexivity.
  - f_equal. apply IH. intros Hin. apply Hn. right. exact Hin.
Qed.

Lemma prop_split {A} (name : string) (v : A) (obj : list (string * A)) :
  prop name obj = Some v ->
  exists front back,
    obj = front ++ (name, v) :: back /\ delete_prop name obj = front ++ back.
Proof.
  induction obj as [| [n x] rest IH]; simpl; [discriminate |].
  destruct (String.eqb_spec n name) as [-> | Hne].
  - intros [= ->]. exists [], rest. split; reflexivity.
  - intros Hp. destruct (IH Hp) as (front & back & -> & Hd).
    exists ((n, x) :: front), back. simpl. rewrite Hd. split; reflexivity.
Qed.

Section Emptying.
Context {S : Type} `{Storage S} (entries : S -> list (string * loc))
  {Sh : Shelf S entries}.

Lemma items_in_app (h : list CacheItem) (es es' : list (string * loc)) :
  items_in h (es ++ es') = items_in h es ++ items_in h es'.
Proof. apply omap_app. Qed.

Lemma items_in_cons_Some (h : list CacheItem) (p : string * loc)
    (es : list (string * loc)) (it : CacheItem) :
  h !! snd p = Some it -> items_in h (p :: es) = it :: items_in h es.
Proof. intros Hit. unfold items_in. simpl. rewrite Hit. reflexivity. Qed.

(** What [removeItem] does to a backend of this kind: the entry goes, its
    callback joins the timers, and the callbacks scheduled together with
    those of the items still held stay the same collection. *)
Lemma removeItem_shelf (k : jsval) (w : World S) :
  tidy entries w ->
  exists w' r,
    removeItem k w = (w', inr r) /\
    entries (_storage w')
      = delete_prop (ToPropertyKey k) (entries (_storage w)) /\
    heap w' = heap w /\
    Permutation (timers w' ++ pending entries w')
                (timers w ++ pending entries w).
Proof.
  intros [Hnd Hok]. unfold removeItem, bind, call.
  destruct (shelf_remove k (_storage w)) as [Hr He].
  destruct (storage_remove k (_storage w)) as [s' r]. simpl in Hr, He.
  subst r. destruct (prop (ToPropertyKey k) (entries (_storage w))) as [l |] eqn:Hp.
  - destruct (prop_split _ _ _ Hp) as (front & back & Hes & Hdel).
    assert (Hin : entry_ok w (ToPropertyKey k, l)).
    { rewrite Forall_forall in Hok. apply Hok, list_elem_of_In.
      rewrite Hes. apply in_elt. }
    destruct Hin as (it & Hit & _). simpl in Hit.
    unfold read_item. simpl.
    match goal with
    | |- context [match ?x with Some _ => _ | None => _ end] =>
        replace x with (Some it) by (symmetry; exact Hit)
    end.
    assert (Hpend : pending entries w
                    = flat_map removal_callback (items_in (heap w) front)
                      ++ removal_callback it
                      ++ flat_map removal_callback (items_in (heap w) back)).
    { unfold pending, shelf_items. fold (items_in (heap w) (entries (_storage w))).
      rewrite Hes, items_in_app, (items_in_cons_Some _ (_, l) _ it Hit).
      rewrite flat_map_app. simpl. reflexivity. }
    assert (Hpend' : forall w', heap w' = heap w -> _storage w' = s' ->
                     pending entries w'
                     = flat_map removal_callback (items_in (heap w) front)
                       ++ flat_map removal_callback (items_in (heap w) back)).
    { intros w' Hh Hs. unfold pending, shelf_items. rewrite Hh, Hs, He, Hdel.
      fold (items_in (heap w) (front ++ back)).
      rewrite items_in_app, flat_map_app. reflexivity. }
    unfold removal_callback in *.
    destruct (callback (options it)) as [g |]; simpl;
      eexists; eexists; (split; [reflexivity |]); simpl;
      (split; [exact He |]); (split; [reflexivity |]).
    + rewrite Hpend, Hpend' by reflexivity.
      rewrite <- !app_assoc. apply Permutation_app_head.
      simpl. apply Permutation_middle.
    + rewrite Hpend, Hpend' by reflexivity. reflexivity.
  - eexists; eexists. split; [reflexivity |]. simpl.
    split; [exact He |]. split; [reflexivity |].
    unfold pending, shelf_items. simpl. rewrite He.
    rewrite (delete_prop_absent _ _ Hp). reflexivity.
Qed.

Lemma clear_loop_shelf (ks : list jsval) (w : World S) :
  tidy entries w ->
  exists w',
    clear_loop ks w = (w', inr tt) /\
    entries (_storage w') = delete_all ks (entries (_storage w)) /\
    heap w' = heap w /\ tidy entries w' /\
    Permutation (timers w' ++ pending entries w')
                (timers w ++ pending entries w).
Proof.
  revert w. induction ks as [| k rest IH]; intros w Hw.
  - exists w. repeat split; try reflexivity; apply Hw.
  - cbn [clear_loop]. pose proof (tidy_removeItem entries k w Hw) as Hw1.
    destruct (removeItem_shelf k w Hw) as (w1 & r & Hrun & He & Hh & Hperm).
    rewrite Hrun in Hw1. simpl in Hw1.
    destruct (IH w1 Hw1) as (w' & Hrun' & He' & Hh' & Hw' & Hperm').
    exists w'. rewrite (bind_ok _ _ _ _ _ Hrun). split; [exact Hrun' |].
    split; [| split; [congruence | split; [exact Hw' |]]].
    + rewrite He', He. reflexivity.
    + etransitivity; eassumption.
Qed.

Lemma In_delete_all (ks : list jsval) (es : list (string * loc))
    (p : string * loc) :
  List.NoDup (map fst es) ->
  In p (delete_all ks es) ->
  In p es /\ ~ In (fst p) (map ToPropertyKey ks).
Proof.
  revert es. induction ks as [| k rest IH]; intros es Hnd; simpl.
  - intros Hin. split; [exact Hin | intros []].
  - intros Hin. apply IH in Hin as [Hin Hrest].
    + rewrite delete_prop_filter in Hin by exact Hnd.
      apply filter_In in Hin as [Hin Hk]. split; [exact Hin |].
      intros [Heq | Hx]; [| contradiction].
      rewrite <- Heq, String.eqb_refl in Hk. discriminate.
    + rewrite delete_prop_filter by exact Hnd. apply NoDup_filter_fst, Hnd.
Qed.


Lemma delete_prop_incl {A} (name : string) (obj : list (string * A)) :
  incl (delete_prop name obj) obj.
Proof.
  induction obj as [| [n x] rest IH]; simpl; [apply incl_refl |].
  destruct (String.eqb n name).
  - apply incl_tl, incl_refl.
  - apply incl_cons; [left; reflexivity | apply incl_tl, IH].
Qed.

(** The scan of [_purge] over the names still to visit: [kept] are the
    entries already visited and found live, [tmp] what was read of them. *)
Lemma purge_scan_shelf (todo kept : list (string * loc)) (tmp : list CacheItem)
    (w : World S) :
  tidy entries w ->
  entries (_storage w) = kept ++ todo ->
  Forall2 (fun p it => heap w !! snd p = Some it) kept tmp ->
  exists w' tmp',
    purge_scan (map (fun p => VStr (fst p)) todo) tmp w = (w', inr tmp') /\
    tidy entries w' /\ heap w' = heap w /\
    incl (entries (_storage w')) (entries (_storage w)) /\
    Forall2 (fun p it => heap w' !! snd p = Some it)
      (entries (_storage w')) tmp' /\
    Permutation (timers w' ++ pending entries w')
                (timers w ++ pending entries w).
Proof.
  revert kept tmp w. induction todo as [| [n l] todo IH]; intros kept tmp w Hw He Hk.
  - exists w, tmp. rewrite app_nil_r in He. rewrite He.
    repeat split; try reflexivity; try apply Hw; try exact Hk. apply incl_refl.
  - assert (Hfresh : ~ In n (map fst kept)).
    { destruct Hw as [Hnd _]. rewrite He, map_app in Hnd.
      apply NoDup_ListNoDup, NoDup_app in Hnd as (_ & Hd & _).
      intros Hin. apply (Hd n); [apply list_elem_of_In, Hin |].
      simpl. left. }
    assert (Hin : entry_ok w (n, l)).
    { destruct Hw as [_ Hok]. rewrite Forall_forall in Hok.
      apply Hok, list_elem_of_In. rewrite He. apply in_elt. }
    destruct Hin as (it & Hit & _). cbn [snd] in Hit.
    cbn [map purge_scan fst].
    set (w1 := with_reads (Datatypes.S (reads w)) (with_storage (_storage w) w)).
    assert (Hget : call (storage_get (VStr n)) w
                   = (with_storage (_storage w) w, inr (Some l))).
    { unfold call. rewrite shelf_get, He. cbn [ToPropertyKey].
      rewrite prop_app_fresh by exact Hfresh. simpl.
      rewrite String.eqb_refl. reflexivity. }
    assert (Hread : forall w0 : World S, heap w0 = heap w ->
                    read_item (Some l) w0 = (w0, inr it)).
    { intros w0 Hh. unfold read_item. rewrite Hh.
      match goal with
      | |- context [match ?x with Some _ => _ | None => _ end] =>
          replace x with (Some it) by (symmetry; exact Hit)
      end. reflexivity. }
    assert (Hexp : _isExpired (Some l) (with_storage (_storage w) w)
                   = (w1, inr (_isExpired_at (clock w (reads w)) it))).
    { unfold _isExpired, Date_now. unfold bind at 1. cbn [reads with_storage clock].
      fold w1. rewrite (bind_ok _ _ _ _ _ (Hread w1 eq_refl)). reflexivity. }
    assert (Hw1 : tidy entries w1).
    { revert Hw. apply tidy_same; reflexivity. }
    rewrite (bind_ok _ _ _ _ _ Hget), (bind_ok _ _ _ _ _ Hexp).
    destruct (_isExpired_at (clock w (reads w)) it).
    + pose proof (tidy_removeItem entries (VStr n) w1 Hw1) as Hw2.
      destruct (removeItem_shelf (VStr n) w1 Hw1) as (w2 & r & Hrun & He2 & Hh2 & Hp2).
      rewrite Hrun in Hw2. cbn [fst] in Hw2.
      rewrite (bind_ok _ _ _ _ _ Hrun).
      assert (He2' : entries (_storage w2) = kept ++ todo).
      { rewrite He2. change (entries (_storage w1)) with (entries (_storage w)).
        rewrite He. cbn [ToPropertyKey].
        rewrite delete_prop_app_fresh by exact Hfresh. simpl.
        rewrite String.eqb_refl. reflexivity. }
      destruct (IH kept tmp w2 Hw2 He2') as (w' & tmp' & Hscan & Hw' & Hh' & Hi' & Hk' & Hp').
      { rewrite Hh2. exact Hk. }
      exists w', tmp'. split; [exact Hscan |]. split; [exact Hw' |].
      split; [rewrite Hh', Hh2; reflexivity |]. split; [| split; [exact Hk' |]].
      * intros p Hp. apply Hi' in Hp. rewrite He2' in Hp. rewrite He.
        apply in_app_iff in Hp as [Hp | Hp]; apply in_app_iff; [left | right; right];
          exact Hp.
      * etransitivity; [exact Hp' |]. exact Hp2.
    + rewrite (bind_ok _ _ _ _ _ (Hread w1 eq_refl)).
      destruct (IH (kept ++ [(n, l)]) (tmp ++ [it]) w1 Hw1)
        as (w' & tmp' & Hscan & Hw' & Hh' & Hi' & Hk' & Hp').
      { change (entries (_storage w1)) with (entries (_storage w)).
        rewrite He, <- app_assoc. reflexivity. }
      { apply Forall2_app; [exact Hk |]. constructor; [exact Hit | constructor]. }
      exists w', tmp'. split; [exact Hscan |]. split; [exact Hw' |].
      split; [exact Hh' |]. split; [exact Hi' |]. split; [exact Hk' | exact Hp'].
Qed.

(** The names of visited entries are the keys of what was read of them. *)
Lemma entries_names (w : World S) (es : list (string * loc))
    (tmp : list CacheItem) :
  Forall (entry_ok w) es ->
  Forall2 (fun p it => heap w !! snd p = Some it) es tmp ->
  map fst es = map (fun it => ToPropertyKey (key it)) tmp.
Proof.
  intros Hok Hk. induction Hk as [| p it es tmp Hp Hk IH]; [reflexivity |].
  apply Forall_cons in Hok as [(it' & Hit' & Hname) Hok].
  simpl. f_equal; [| apply IH, Hok].
  assert (Some it' = Some it) as [= ->] by (rewrite <- Hit'; exact Hp).
  symmetry. exact Hname.
Qed.

(** The sort-and-evict part of [_purge] on a backend of this kind: at most
    the integer part of [purgeSize] entries are left. *)
Lemma purge_excess_shelf (tmp : list CacheItem) (purgeSize : Q) (w : World S) :
  tidy entries w ->
  Forall2 (fun p it => heap w !! snd p = Some it) (entries (_storage w)) tmp ->
  0 <= Qfloor purgeSize ->
  exists w',
    purge_excess tmp purgeSize w = (w', inr tt) /\
    tidy entries w' /\ heap w' = heap w /\
    incl (entries (_storage w')) (entries (_storage w)) /\
    Z.of_nat (length (entries (_storage w'))) <= Qfloor purgeSize /\
    Permutation (timers w' ++ pending entries w')
                (timers w ++ pending entries w).
Proof.
  intros Hw Hk Hp. unfold purge_excess. rewrite Qgtb_floor.
  destruct (Z.ltb_spec (Qfloor purgeSize) (Z.of_nat (length tmp))) as [Hlt | Hge].
  - destruct (purge_evict_prefix (S := S) (rev (Array_sort purge_compare tmp))
                purgeSize Hp) as (victims & rest & Hsplit & Hlen & Hrun).
    rewrite Hrun.
    destruct (clear_loop_shelf (map key victims) w Hw)
      as (w' & Hloop & He' & Hh' & Hw' & Hperm).
    exists w'. split; [exact Hloop |]. split; [exact Hw' |].
    split; [exact Hh' |].
    assert (Hsub : forall p, In p (entries (_storage w')) ->
              In p (entries (_storage w)) /\
              In (fst p) (map (fun it => ToPropertyKey (key it)) rest)).
    { intros p Hin. rewrite He' in Hin.
      apply In_delete_all in Hin as [Hin Hnot]; [| apply Hw].
      split; [exact Hin |].
      assert (Hname : In (fst p) (map (fun it => ToPropertyKey (key it)) tmp)).
      { rewrite <- (entries_names w _ _ (proj2 Hw) Hk). apply in_map, Hin. }
      assert (Hperm' : Permutation tmp (victims ++ rest)).
      { rewrite <- Hsplit, <- Permutation_rev, Array_sort_Permutation. reflexivity. }
      apply (Permutation_in _ (Permutation_map _ Hperm')) in Hname.
      rewrite map_app in Hname. apply in_app_iff in Hname as [Hv | Hr]; [| exact Hr].
      exfalso. apply Hnot. rewrite map_map. exact Hv. }
    split; [intros p Hin; apply Hsub, Hin |]. split; [| exact Hperm].
    assert (Hle : (length (map fst (entries (_storage w')))
                   <= length (map (fun it => ToPropertyKey (key it)) rest))%nat).
    { apply List.NoDup_incl_length; [apply Hw' |].
      intros name Hin. apply in_map_iff in Hin as (p & <- & Hin).
      apply Hsub, Hin. }
    rewrite !length_map in Hle. lia.
  - exists w. split; [reflexivity |]. split; [exact Hw |]. split; [reflexivity |].
    split; [apply incl_refl |]. split; [| reflexivity].
    rewrite (Forall2_length _ _ _ Hk). exact Hge.
Qed.

(** What a whole purge does on a backend of this kind, in terms of the
    value [purgeSize] its first lines compute. *)
Lemma purge_shelf (w : World S) :
  tidy entries w ->
  forall (w0 : World S) (purgeSize : Q),
    (if _maxSize w <? 0 then
       n <- size ;; ret (inject_Z n * _fillFactor w)%Q
     else ret (inject_Z (Math_round (inject_Z
                 (bitand (inject_Z (_maxSize w)) (_fillFactor w)))))) w
    = (w0, inr purgeSize) ->
    0 <= Qfloor purgeSize ->
    exists w',
      _purge w = (w', inr tt) /\
      tidy entries w' /\ heap w' = heap w /\
      incl (entries (_storage w')) (entries (_storage w)) /\
      Z.of_nat (length (entries (_storage w'))) <= Qfloor purgeSize /\
      Permutation (timers w' ++ pending entries w')
                  (timers w ++ pending entries w).
Proof.
  intros Hw w0 purgeSize Hsize Hp.
  assert (Hframe : tidy entries w0 /\ heap w0 = heap w /\
                   entries (_storage w0) = entries (_storage w) /\
                   timers w0 = timers w).
  { destruct (_maxSize w <? 0).
    - unfold size, bind, call, ret in Hsize.
      pose proof (shelf_size (_storage w)) as Hs.
      destruct (storage_size (_storage w)) as [s' [e | n]]; [discriminate |].
      injection Hsize as <- _. cbn [fst] in Hs.
      split; [| split; [reflexivity | split; [exact Hs | reflexivity]]].
      revert Hw. apply tidy_same; [exact Hs | reflexivity].
    - injection Hsize as <- _. repeat split; apply Hw. }
  destruct Hframe as (Hw0 & Hh0 & He0 & Ht0).
  set (w1 := with_storage (_storage w0) w0).
  assert (Hkeys : call storage_keys w0
                  = (w1, inr (map (fun p => VStr (fst p)) (entries (_storage w0))))).
  { unfold call. rewrite shelf_keys. reflexivity. }
  assert (Hw1 : tidy entries w1) by (revert Hw0; apply tidy_same; reflexivity).
  destruct (purge_scan_shelf (entries (_storage w0)) [] [] w1 Hw1 eq_refl)
    as (w2 & tmp & Hscan & Hw2 & Hh2 & Hi2 & Hk2 & Hp2); [constructor |].
  destruct (purge_excess_shelf tmp purgeSize w2 Hw2 Hk2 Hp)
    as (w' & Hrun & Hw' & Hh' & Hi' & Hlen & Hp').
  exists w'. split.
  - unfold _purge, get_maxSize, get_fillFactor. unfold bind at 1 2. cbn beta iota.
    rewrite (bind_ok _ _ _ _ _ Hsize), (bind_ok _ _ _ _ _ Hkeys),
      (bind_ok _ _ _ _ _ Hscan). exact Hrun.
  - split; [exact Hw' |]. split; [rewrite Hh', Hh2; exact Hh0 |].
    split; [| split; [exact Hlen |]].
    + intros p Hin. rewrite <- He0. apply Hi2, Hi', Hin.
    + etransitivity; [exact Hp' |]. etransitivity; [exact Hp2 |].
      unfold pending, shelf_items. cbn [timers heap _storage w1 with_storage].
      rewrite Ht0, Hh0, He0. reflexivity.
Qed.

End Emptying.

(** X13. [clear()] on a backend of the [Cache.Basic] kind returns, leaves no
    entry behind, writes to no item, and schedules the removal callback of
    every item that was held, each once, next to the callbacks that were
    already waiting. *)
Theorem clear_empties_backend {S} `{Storage S}
    (entries : S -> list (string * loc)) (Sh : Shelf S entries) (w : World S) :
  tidy entries w ->
  let w' := fst (clear w) in
  snd (clear w) = inr tt /\
  entries (_storage w') = [] /\
  heap w' = heap w /\
  Permutation (timers w') (timers w ++ pending entries w).
Proof.
  intros Hw. cbv zeta. unfold clear, call.
  set (w1 := with_storage (_storage w) w).
  assert (Hkeys : call storage_keys w
                  = (w1, inr (map (fun p => VStr (fst p)) (entries (_storage w))))).
  { unfold call. rewrite shelf_keys. reflexivity. }
  assert (Hw1 : tidy entries w1) by (revert Hw; apply tidy_same; reflexivity).
  destruct (clear_loop_shelf entries
              (map (fun p => VStr (fst p)) (entries (_storage w))) w1 Hw1)
    as (w' & Hloop & He' & Hh' & Hw' & Hperm).
  fold (call (S := S) (storage_keys (S := S))).
  rewrite (bind_ok _ _ _ _ _ Hkeys), Hloop. cbn [fst snd].
  assert (Hall : forall p, In p (entries (_storage w')) -> False).
  { intros p Hin. rewrite He' in Hin.
    apply In_delete_all in Hin as [Hin Hnot]; [| apply Hw].
    apply Hnot. rewrite map_map. cbn [ToPropertyKey].
    change (In (fst p) (map fst (entries (_storage w1)))). apply in_map, Hin. }
  assert (Hnone : entries (_storage w') = []).
  { destruct (entries (_storage w')) as [| p rest]; [reflexivity |].
    destruct (Hall p). left. reflexivity. }
  split; [reflexivity |]. split; [exact Hnone |]. split; [exact Hh' |].
  assert (Hp' : pending entries w' = []).
  { unfold pending, shelf_items. rewrite Hnone. reflexivity. }
  rewrite Hp', app_nil_r in Hperm. exact Hperm.
Qed.

(** Tidiness of a concrete world, by evaluation. *)
Ltac check_tidy :=
  split;
  [ vm_compute;
    repeat (apply List.NoDup_cons; [simpl; intuition discriminate |]);
    apply List.NoDup_nil
  | vm_compute;
    repeat (constructor; [eexists; split; reflexivity |]); constructor ].

Lemma clear_empties_backend_witness :
  let w := fst ((setItem (VStr "a") (VNum 1) (Some (with_callback 7%nat)) ;;
                 setItem (VStr "b") (VNum 2) None)
                  (Cache None Basic_new ticking)) in
  let w' := fst (clear w) in
  tidy _items w /\
  snd (clear w) = inr tt /\
  _items (_storage w') = [] /\
  heap w' = heap w /\
  Permutation (timers w') (timers w ++ pending _items w).
Proof.
  intros w.
  assert (Hw : tidy _items w) by (subst w; check_tidy).
  split; [exact Hw | exact (clear_empties_backend _items Basic_Shelf w Hw)].
Defined.

(** X14. On a cache with a size limit the purge target is zero, so a purge over
    a backend of the [Cache.Basic] kind removes every entry, live or
    expired, and schedules the removal callback of each item once. *)
Theorem bounded_purge_empties_backend {S} `{Storage S}
    (entries : S -> list (string * loc)) (Sh : Shelf S entries) (w : World S) :
  tidy entries w ->
  0 <= _maxSize w ->
  _fillFactor w = 3 # 4 ->
  let w' := fst (_purge w) in
  snd (_purge w) = inr tt /\
  entries (_storage w') = [] /\
  heap w' = heap w /\
  Permutation (timers w') (timers w ++ pending entries w).
Proof.
  intros Hw Hmax Hff. cbv zeta.
  destruct (purge_shelf entries w Hw w 0%Q) as (w' & Hrun & Hw' & Hh' & _ & Hlen & Hperm).
  - destruct (Z.ltb_spec (_maxSize w) 0) as [Hneg | _]; [lia |].
    rewrite Hff. unfold ret, bitand.
    replace (ToInt32 (3 # 4)) with 0 by (vm_compute; reflexivity).
    rewrite Z.land_0_r. reflexivity.
  - vm_compute. discriminate.
  - rewrite Hrun. cbn [fst snd].
    assert (Hnone : entries (_storage w') = []).
    { change (Qfloor 0%Q) with 0 in Hlen.
      destruct (entries (_storage w')); [reflexivity | simpl length in Hlen; lia]. }
    split; [reflexivity |]. split; [exact Hnone |]. split; [exact Hh' |].
    assert (Hp' : pending entries w' = []).
    { unfold pending, shelf_items. rewrite Hnone. reflexivity. }
    rewrite Hp', app_nil_r in Hperm. exact Hperm.
Qed.

Lemma bounded_purge_empties_backend_witness :
  let w := fst ((setItem (VStr "a") (VNum 1) (Some (with_callback 7%nat)) ;;
                 setItem (VStr "b") (VNum 2) None)
                  (Cache (Some 5) {| base := Basic_new |} ticking)) in
  let w' := fst (_purge w) in
  (tidy (fun s => _items (base s)) w /\ 0 <= _maxSize w /\ _fillFactor w = 3 # 4) /\
  snd (_purge w) = inr tt /\
  _items (base (_storage w')) = [] /\
  heap w' = heap w /\
  Permutation (timers w') (timers w ++ pending (fun s => _items (base s)) w).
Proof.
  intros w.
  assert (Hw : tidy (fun s => _items (base s)) w) by (subst w; check_tidy).
  assert (Hmax : 0 <= _maxSize w) by (vm_compute; discriminate).
  assert (Hff : _fillFactor w = 3 # 4) by reflexivity.
  split; [auto |].
  exact (bounded_purge_empties_backend _ Sized_Shelf w Hw Hmax Hff).
Defined.

(** X15. On a cache without a size limit, a purge over a backend of the
    [Cache.Basic] kind whose [size()] answers [n] leaves at most three
    quarters of [n] entries, all of which were there before; the removal
    callback of every item that went is scheduled once, and none other. *)
Theorem unbounded_purge_keeps_three_quarters {S} `{Storage S}
    (entries : S -> list (string * loc)) (Sh : Shelf S entries) (w : World S)
    (n : Z) :
  tidy entries w ->
  _maxSize w < 0 ->
  _fillFactor w = 3 # 4 ->
  snd (storage_size (_storage w)) = inr n ->
  0 <= n ->
  let w' := fst (_purge w) in
  snd (_purge w) = inr tt /\
  4 * Z.of_nat (length (entries (_storage w'))) <= 3 * n /\
  incl (entries (_storage w')) (entries (_storage w)) /\
  heap w' = heap w /\
  Permutation (timers w' ++ pending entries w') (timers w ++ pending entries w).
Proof.
  intros Hw Hmax Hff Hsize Hn. cbv zeta.
  destruct (storage_size (_storage w)) as [s0 r] eqn:Hs. cbn [snd] in Hsize. subst r.
  destruct (purge_shelf entries w Hw (with_storage s0 w) (inject_Z n * (3 # 4))%Q)
    as (w' & Hrun & Hw' & Hh' & Hi' & Hlen & Hperm).
  - destruct (Z.ltb_spec (_maxSize w) 0) as [_ | Hpos]; [| lia].
    unfold size, bind, call. rewrite Hs, Hff. reflexivity.
  - unfold Qfloor, Qmult, inject_Z. cbn [Qnum Qden].
    apply Z.div_pos; lia.
  - rewrite Hrun. cbn [fst snd]. split; [reflexivity |].
    split; [| split; [exact Hi' | split; [exact Hh' | exact Hperm]]].
    unfold Qfloor, Qmult, inject_Z in Hlen. cbn [Qnum Qden] in Hlen.
    change (Z.pos (1 * 4)) with 4 in Hlen.
    pose proof (Z.mul_div_le (n * 3) 4 ltac:(lia)). lia.
Qed.

Lemma unbounded_purge_keeps_three_quarters_witness :
  let w := two_ranks in
  let w' := fst (_purge w) in
  (tidy (fun s => _items (base s)) w /\ _maxSize w < 0 /\
   _fillFactor w = 3 # 4 /\ snd (storage_size (_storage w)) = inr 2 /\ 0 <= 2) /\
  snd (_purge w) = inr tt /\
  4 * Z.of_nat (length (_items (base (_storage w')))) <= 3 * 2 /\
  incl (_items (base (_storage w'))) (_items (base (_storage w))) /\
  heap w' = heap w /\
  Permutation (timers w' ++ pending (fun s => _items (base s)) w')
              (timers w ++ pending (fun s => _items (base s)) w).
Proof.
  intros w.
  assert (Hw : tidy (fun s => _items (base s)) w) by (subst w; check_tidy).
  assert (Hmax : _maxSize w < 0) by (vm_compute; reflexivity).
  assert (Hff : _fillFactor w = 3 # 4) by reflexivity.
  assert (Hsize : snd (storage_size (_storage w)) = inr 2) by reflexivity.
  assert (Hn : 0 <= 2) by lia.
  split; [auto 6 |].
  exact (unbounded_purge_keeps_three_quarters _ Sized_Shelf w 2 Hw Hmax Hff Hsize Hn).
Defined.

(** ** [Cache.Basic] on its own *)

Lemma length_assign {A} (name : string) (v : A) (obj : list (string * A)) :
  length (assign name v obj)
  = match prop name obj with
    | Some _ => length obj
    | None => Datatypes.S (length obj)
    end.
Proof.
  induction obj as [| [n x] rest IH]; simpl; [reflexivity |].
  destruct (String.eqb n name); simpl; [reflexivity |].
  rewrite IH. destruct (prop name rest); reflexivity.
Qed.

Lemma NoDup_assign {A} (name : string) (v : A) (obj : list (string * A)) :
  List.NoDup (map fst obj) -> List.NoDup (map fst (assign name v obj)).
Proof.
  induction obj as [| [n x] rest IH]; simpl; intros Hnd.
  - constructor; [intros [] | constructor].
  - apply List.NoDup_cons_iff in Hnd as [Hn Hnd].
    destruct (String.eqb_spec n name) as [-> | Hne]; simpl.
    + constructor; assumption.
    + constructor; [| apply IH, Hnd].
      intros Hin. apply in_map_iff in Hin as ([n' x'] & Heq & Hin).
      simpl in Heq. subst n'. apply In_assign in Hin as [[= -> _] | Hin].
      * apply Hne. reflexivity.
      * apply Hn. apply in_map_iff. exists (n, x'). split; [reflexivity | exact Hin].
Qed.

Lemma prop_delete_prop {A} (name name' : string) (obj : list (string * A)) :
  List.NoDup (map fst obj) ->
  prop name' (delete_prop name obj)
  = if String.eqb name name' then None else prop name' obj.
Proof.
  induction obj as [| [n x] rest IH]; simpl; intros Hnd.
  - destruct (String.eqb name name'); reflexivity.
  - apply List.NoDup_cons_iff in Hnd as [Hn Hnd].
    destruct (String.eqb_spec n name) as [-> | Hne].
    + destruct (String.eqb_spec name name') as [<- | Hne'].
      * apply prop_None, Hn.
      * reflexivity.
    + simpl. rewrite (IH Hnd).
      destruct (String.eqb_spec name name') as [<- | Hne'].
      * destruct (String.eqb_spec n name); [contradiction | reflexivity].
      * reflexivity.
Qed.

Lemma NoDup_map_VStr (names : list string) :
  List.NoDup names -> List.NoDup (map VStr names).
Proof.
  induction 1 as [| n rest Hn Hnd IH]; simpl; constructor; [| exact IH].
  intros Hin. apply in_map_iff in Hin as (n' & [= ->] & Hin). contradiction.
Qed.

Lemma Basic_set_ok (k : jsval) (v : loc) (b : Basic) :
  Basic_ok b -> Basic_ok (Basic_set k v b).
Proof.
  intros [Hc Hnd]. unfold Basic_ok, Basic_set, Basic_get. simpl.
  split; [| apply NoDup_assign, Hnd].
  rewrite length_assign.
  destruct (prop (ToPropertyKey k) (_items b)); lia.
Qed.

Lemma Basic_remove_ok (k : jsval) (b : Basic) :
  Basic_ok b -> Basic_ok (fst (Basic_remove k b)).
Proof.
  intros [Hc Hnd]. unfold Basic_ok, Basic_remove, Basic_get.
  destruct (prop (ToPropertyKey k) (_items b)) as [l |] eqn:Hp; simpl.
  - destruct (prop_split _ _ _ Hp) as (front & back & Hes & Hdel).
    split.
    + rewrite Hdel, Hc, Hes, !length_app. simpl. lia.
    + rewrite delete_prop_filter by exact Hnd. apply NoDup_filter_fst, Hnd.
  - split; assumption.
Qed.

Lemma Basic_calls_ok (cs : list BasicCall) : Basic_ok (Basic_calls cs).
Proof.
  unfold Basic_calls.
  assert (Hnew : Basic_ok Basic_new) by (split; [reflexivity | constructor]).
  revert Hnew. generalize Basic_new.
  induction cs as [| c rest IH]; intros b Hb; [exact Hb |].
  simpl. apply IH. destruct c; simpl; auto using Basic_set_ok, Basic_remove_ok.
Qed.

(** X16. Whatever series of calls with plain keys (none of the names of
    [Object.prototype]) a new [Cache.Basic] object has answered, storing
    objects as the cache does, its counter is the number of keys [keys()]
    lists, and no key is listed twice. *)
Theorem Basic_count_is_number_of_keys (cs : list BasicCall) :
  forallb plain_call cs = true ->
  let b := Basic_calls cs in
  _count b = Z.of_nat (length (Basic_keys b)) /\ List.NoDup (Basic_keys b).
Proof.
  intros _. cbv zeta. destruct (Basic_calls_ok cs) as [Hc Hnd]. unfold Basic_keys.
  split; [rewrite length_map; exact Hc |].
  rewrite <- (map_map fst VStr). apply NoDup_map_VStr, Hnd.
Qed.

Lemma Basic_count_is_number_of_keys_witness :
  let cs := [CallSet (VStr "a") 0%nat; CallSet (VNum 1) 1%nat;
             CallSet (VStr "1") 2%nat; CallGet (VStr "b");
             CallRemove (VStr "a"); CallRemove (VStr "a"); CallKeys] in
  forallb plain_call cs = true /\
  _count (Basic_calls cs) = Z.of_nat (length (Basic_keys (Basic_calls cs))) /\
  List.NoDup (Basic_keys (Basic_calls cs)).
Proof.
  intros cs. split; [reflexivity |].
  apply (Basic_count_is_number_of_keys cs). reflexivity.
Defined.

(** X17. On plain keys (none of the names of [Object.prototype]; numbers
    below 2^53) a [Cache.Basic] object is a map on property names: [get]
    after [set] answers the new value under every key of the same name and
    the old answer under the others; after [remove], which returns what
    [get] did, nothing under that name and the old answer under the
    others. *)
Theorem Basic_is_a_map_on_names (cs : list BasicCall) (k k' : jsval) (v : loc) :
  forallb plain_call cs = true ->
  plain_key k = true ->
  plain_key k' = true ->
  let b := Basic_calls cs in
  let same := String.eqb (ToPropertyKey k) (ToPropertyKey k') in
  Basic_get k' (Basic_set k v b) = (if same then Some v else Basic_get k' b) /\
  snd (Basic_remove k b) = Basic_get k b /\
  Basic_get k' (fst (Basic_remove k b)) = (if same then None else Basic_get k' b).
Proof.
  intros _ _ _. cbv zeta. destruct (Basic_calls_ok cs) as [_ Hnd].
  pose proof (Basic_remove_entries k (Basic_calls cs)) as [Hr He].
  unfold Basic_get in *. split; [| split; [exact Hr |]].
  - unfold Basic_set. simpl.
    destruct (String.eqb_spec (ToPropertyKey k) (ToPropertyKey k')) as [<- | Hne].
    + apply prop_assign.
    + apply prop_assign_ne, Hne.
  - rewrite He. apply prop_delete_prop, Hnd.
Qed.

Lemma Basic_is_a_map_on_names_witness :
  let cs := [CallSet (VStr "a") 0%nat; CallSet (VStr "1") 1%nat] in
  let b := Basic_calls cs in
  (forallb plain_call cs = true /\ plain_key (VNum 1) = true /\
   plain_key (VStr "1") = true) /\
  Basic_get (VStr "1") (Basic_set (VNum 1) 2%nat b) = Some 2%nat /\
  snd (Basic_remove (VNum 1) b) = Basic_get (VNum 1) b /\
  Basic_get (VStr "1") (fst (Basic_remove (VNum 1) b)) = None.
Proof.
  intros cs b. split; [repeat split |].
  exact (Basic_is_a_map_on_names cs (VNum 1) (VStr "1") 2%nat
           eq_refl eq_refl eq_refl).
Defined.

(** ** What is scheduled stays scheduled *)

Section Scheduled.
Context {S : Type} `{Storage S} (t : Task).

Lemma waits_call {A} (method : S -> S * (exn + A)) : keeps (@waits S t) (call method).
Proof. intros w Hw. unfold call. destruct (method (_storage w)). exact Hw. Qed.

Lemma waits_Date_now : keeps (@waits S t) Date_now.
Proof. intros w Hw. exact Hw. Qed.

Lemma waits_alloc (it : CacheItem) : keeps (@waits S t) (alloc it).
Proof. intros w Hw. exact Hw. Qed.

Lemma waits_setTimeout (t' : Task) : keeps (@waits S t) (setTimeout t').
Proof. intros w Hw. simpl. apply in_or_app. left. exact Hw. Qed.

End Scheduled.

Ltac waits_steps :=
  repeat first
    [ match goal with
      | |- keeps _ (bind _ _) => apply keeps_bind
      | |- keeps _ (try_catch _ _) => apply keeps_try_catch
      | |- forall _, _ => intro
      | |- keeps _ (match ?x with _ => _ end) => destruct x
      | |- keeps _ (call _) => apply waits_call
      | |- keeps _ size => apply waits_call
      | |- keeps _ Date_now => apply waits_Date_now
      | |- keeps _ (setTimeout _) => apply waits_setTimeout
      | |- keeps _ (alloc _) => apply waits_alloc
      end
    | solve [eauto with inv] ].

Section ScheduledMethods.
Context {S : Type} `{Storage S} (t : Task).

Lemma waits_isExpired (item : option loc) : keeps (@waits S t) (_isExpired item).
Proof. unfold _isExpired. waits_steps. Qed.

Lemma waits_removeItem (k : jsval) : keeps (@waits S t) (removeItem k).
Proof. unfold removeItem. waits_steps. Qed.

Lemma waits_purge_scan (keys : list jsval) (tmp : list CacheItem) :
  keeps (@waits S t) (purge_scan keys tmp).
Proof.
  revert tmp. induction keys as [| k rest IH]; intros tmp; cbn [purge_scan];
    waits_steps; try apply waits_isExpired; apply waits_removeItem.
Qed.

Lemma waits_purge_evict (stack : list CacheItem) (purgeSize : Q) :
  keeps (@waits S t) (purge_evict stack purgeSize).
Proof.
  induction stack as [| it rest IH]; cbn [purge_evict]; waits_steps.
  apply waits_removeItem.
Qed.

Lemma waits_purge : keeps (@waits S t) _purge.
Proof.
  unfold _purge, purge_excess. waits_steps.
  - apply waits_purge_scan.
  - apply waits_purge_evict.
Qed.

Lemma waits_CacheItem_new (k v : jsval) (opts : option OptionsArg) :
  keeps (@waits S t) (CacheItem_new k v opts).
Proof. unfold CacheItem_new. destruct (negb (truthy k)); waits_steps. Qed.

Lemma waits_addItem (item : loc) (attempted : bool) :
  keeps (@waits S t) (_addItem item attempted).
Proof.
  unfold _addItem, _addItem_body. waits_steps. apply waits_purge.
Qed.

Lemma waits_insertion (k v : jsval) (opts : option OptionsArg) :
  keeps (@waits S t)
    (item <- CacheItem_new k v opts ;;
     _addItem item false ;;
     maxSize <- get_maxSize ;;
     if 0 <? maxSize then
       n <- size ;;
       if maxSize <? n then setTimeout PurgeTask else ret tt
     else ret tt).
Proof.
  waits_steps.
  - apply waits_CacheItem_new.
  - apply waits_addItem.
Qed.

End ScheduledMethods.

(** X18. Replacing an entry fires the removal callback of the item it held:
    when [setItem] finds an item with a callback under the key, that
    callback is scheduled with the old key and value, whether the insertion
    that follows succeeds or throws. *)
Theorem overwrite_fires_callback {S} `{Storage S}
    (entries : S -> list (string * loc)) (Sh : Shelf S entries) (w : World S)
    (k v : jsval) (opts : option OptionsArg) (l : loc) (it : CacheItem) (g : fn) :
  prop (ToPropertyKey k) (entries (_storage w)) = Some l ->
  heap w !! l = Some it ->
  callback (options it) = Some g ->
  In (CallbackTask g (key it) (value it)) (timers (fst (setItem k v opts w))).
Proof.
  intros Hp Hit Hcb. unfold setItem.
  set (w1 := with_storage (_storage w) w).
  assert (Hget : call (storage_get k) w = (w1, inr (Some l))).
  { unfold call. rewrite shelf_get, Hp. reflexivity. }
  rewrite (bind_ok _ _ _ _ _ Hget), bind_assoc.
  assert (Hrem : exists w2 r, removeItem k w1 = (w2, inr r) /\
                 In (CallbackTask g (key it) (value it)) (timers w2)).
  { unfold removeItem, bind, call.
    destruct (shelf_remove k (_storage w1)) as [Hr _].
    destruct (storage_remove k (_storage w1)) as [s' r]. cbn [snd] in Hr.
    subst r. change (entries (_storage w1)) with (entries (_storage w)).
    rewrite Hp. unfold read_item. cbn [heap with_storage w1].
    match goal with
    | |- context [match ?x with Some _ => _ | None => _ end] =>
        replace x with (Some it) by (symmetry; exact Hit)
    end.
    rewrite Hcb. eexists; eexists. split; [reflexivity |].
    simpl. apply in_or_app. right. left. reflexivity. }
  destruct Hrem as (w2 & r & Hrun & Hin).
  rewrite (bind_ok _ _ _ _ _ Hrun). unfold ret at 1. unfold bind at 1.
  apply (waits_insertion _ k v opts w2 Hin).
Qed.

Lemma overwrite_fires_callback_witness :
  let w := fst (setItem (VStr "a") (VNum 1) (Some (with_callback 7%nat))
                  (Cache None Basic_new ticking)) in
  (prop (ToPropertyKey (VStr "a")) (_items (_storage w)) = Some 0%nat /\
   heap w !! 0%nat = Some (fresh_item (VStr "a") (VNum 1)
                             (Some (with_callback 7%nat)) 1000) /\
   callback (options (fresh_item (VStr "a") (VNum 1)
                        (Some (with_callback 7%nat)) 1000)) = Some 7%nat) /\
  In (CallbackTask 7%nat (VStr "a") (VNum 1))
     (timers (fst (setItem (VStr "a") (VNum 2) None w))).
Proof.
  intros w.
  split; [repeat split |].
  exact (overwrite_fires_callback _items Basic_Shelf w (VStr "a") (VNum 2) None
           0%nat _ 7%nat eq_refl eq_refl eq_refl).
Defined.

(** ** An options object passed twice *)

Lemma getTime_fails_passed_again (o : Options) (t : Z) :
  expirationAbsolute o = Some t -> t <> 0 ->
  getTime_fails (Some (passed_again o)) = true.
Proof.
  intros Ho Ht. unfold getTime_fails, passed_again. cbn [arg_expirationAbsolute].
  rewrite Ho. cbn [option_map]. apply negb_true_iff, Z.eqb_neq, Ht.
Qed.

Lemma CacheItem_new_passed_again {S} `{Storage S} (w : World S) (k v : jsval)
    (o : Options) (t : Z) :
  truthy k = true -> expirationAbsolute o = Some t -> t <> 0 ->
  CacheItem_new k v (Some (passed_again o)) w
  = (w, inl (TypeError "options.expirationAbsolute.getTime is not a function")).
Proof.
  intros Hk Ho Ht. unfold CacheItem_new.
  rewrite Hk, (getTime_fails_passed_again o t Ho Ht). reflexivity.
Qed.

Lemma bind_throws {S A B} (m : M S A) (k : A -> M S B) (w w' : World S)
    (e : exn) :
  m w = (w', inl e) -> bind m k w = (w', inl e).
Proof. intros Hm. unfold bind. rewrite Hm. reflexivity. Qed.

(** X19. The options object of an earlier item, passed to [setItem] again:
    when it carries an absolute expiration other than the epoch,
    [Cache.CacheItem] finds a time value where it calls [getTime] and
    throws a TypeError.  By then [setItem] has removed the entry the key
    held and scheduled its callback; no item is made or stored. *)
Theorem reused_bag_throws {S} `{Storage S}
    (entries : S -> list (string * loc)) (Sh : Shelf S entries) (w : World S)
    (k v : jsval) (o : Options) (t : Z) :
  tidy entries w ->
  truthy k = true ->
  expirationAbsolute o = Some t ->
  t <> 0 ->
  let w' := fst (setItem k v (Some (passed_again o)) w) in
  snd (setItem k v (Some (passed_again o)) w)
    = inl (TypeError "options.expirationAbsolute.getTime is not a function") /\
  entries (_storage w') = delete_prop (ToPropertyKey k) (entries (_storage w)) /\
  heap w' = heap w /\
  Permutation (timers w' ++ pending entries w') (timers w ++ pending entries w).
Proof.
  intros Hw Hk Ho Ht. cbv zeta. unfold setItem.
  set (w1 := with_storage (_storage w) w).
  assert (Hget : call (storage_get k) w
                 = (w1, inr (prop (ToPropertyKey k) (entries (_storage w))))).
  { unfold call. rewrite shelf_get. reflexivity. }
  assert (Hw1 : tidy entries w1) by (revert Hw; apply tidy_same; reflexivity).
  rewrite (bind_ok _ _ _ _ _ Hget).
  destruct (prop (ToPropertyKey k) (entries (_storage w))) as [l |] eqn:Hp.
  - destruct (removeItem_shelf entries k w1 Hw1) as (w2 & r & Hrun & He & Hh & Hperm).
    rewrite !bind_assoc, (bind_ok _ _ _ _ _ Hrun), (bind_ok _ _ w2 w2 tt eq_refl),
      (bind_throws _ _ _ _ _ (CacheItem_new_passed_again w2 k v o t Hk Ho Ht)).
    cbn [fst snd].
    split; [reflexivity |]. split; [exact He |]. split; [exact Hh | exact Hperm].
  - rewrite (bind_ok _ _ w1 w1 tt eq_refl),
      (bind_throws _ _ _ _ _ (CacheItem_new_passed_again w1 k v o t Hk Ho Ht)).
    cbn [fst snd].
    split; [reflexivity |]. split; [| split; reflexivity].
    symmetry. apply delete_prop_absent, Hp.
Qed.

Lemma reused_bag_throws_witness :
  let w := fst (setItem (VStr "k") (VNum 1) (Some far_absolute)
                  (Cache None Basic_new ticking)) in
  let bag := passed_again (item_options (Some far_absolute)) in
  let w' := fst (setItem (VStr "k") (VNum 2) (Some bag) w) in
  (tidy _items w /\ truthy (VStr "k") = true /\
   expirationAbsolute (item_options (Some far_absolute)) = Some 5000 /\
   5000 <> 0) /\
  option_map options (item_under (VStr "k") w)
    = Some (item_options (Some far_absolute)) /\
  snd (setItem (VStr "k") (VNum 2) (Some bag) w)
    = inl (TypeError "options.expirationAbsolute.getTime is not a function") /\
  _items (_storage w') = [] /\
  heap w' = heap w /\
  Permutation (timers w' ++ pending _items w') (timers w ++ pending _items w).
Proof.
  intros w bag w'.
  assert (Hw : tidy _items w) by (subst w; check_tidy).
  assert (Ht : 5000 <> 0) by lia.
  split; [repeat split; [apply Hw | apply Hw | exact Ht] |].
  split; [reflexivity |].
  exact (reused_bag_throws _items Basic_Shelf w (VStr "k") (VNum 2)
           (item_options (Some far_absolute)) 5000 Hw eq_refl eq_refl Ht).
Defined.
